(** * Precursor viewer: extraction and aggregation of MS2 precursor data

    A shallow embedding of [extract_precursor_data], [get_summary_stats] and
    the charge-axis binning of [create_histogram_plots] from [src/app.py].

    Python floats are IEEE 754 binary64 numbers and are modelled by Rocq's
    primitive [float]; Python ints are unbounded and are modelled by [Z].
    The decoded mzML document is the nested dictionary structure produced by
    the parsing library, modelled by records whose optional keys are
    [option] fields.  The extractor is given twice: over its three
    accumulators alone, and over a store of list objects in which the
    accumulators are created and appended to in place; the second is shown
    to compute what the first computes. *)

From Stdlib Require Import ZArith Floats Lia.
From stdpp Require Import base option list strings pretty gmap sorting.

Set Warnings "-inexact-float".

Local Open Scope Z_scope.

(** ** Exceptions and results *)

Inductive exn : Type :=
  | OverflowError       (* int too large to convert to float *)
  | ValueError          (* min()/max() of an empty sequence, arange length *)
  | ZeroDivisionError.  (* float division by zero *)

Inductive result (A : Type) : Type :=
  | Ok (a : A)
  | Raise (e : exn).
Arguments Ok {A} a.
Arguments Raise {A} e.

Definition result_bind {A B} (f : A → result B) (r : result A) : result B :=
  match r with
  | Ok a => f a
  | Raise e => Raise e
  end.

#[global] Instance result_ret : MRet result := λ A, @Ok A.
#[global] Instance result_mbind : MBind result := λ A B, @result_bind A B.
#[global] Instance result_fmap : FMap result :=
  λ A B f r, match r with Ok a => Ok (f a) | Raise e => Raise e end.

Definition is_Ok {A} (r : result A) : Prop := ∃ a, r = Ok a.

(** ** Python numbers *)

(** [float(z)] for a Python int: the nearest binary64 number (ties to even);
    an int whose rounded magnitude reaches 2^1024 raises [OverflowError]. *)
Definition float_of_int (z : Z) : result float :=
  match binary_normalize prec emax z 0 false with
  | S754_infinity _ => Raise OverflowError
  | sf => Ok (SF2Prim sf)
  end.

(** [x * n], [n * x], [n - x] and [n + x] for a float [x] and an int [n]:
    the int operand is converted first. *)
Definition float_mul_int (x : float) (n : Z) : result float :=
  y ← float_of_int n; mret (x * y)%float.

Definition int_mul_float (n : Z) (x : float) : result float :=
  y ← float_of_int n; mret (y * x)%float.

Definition int_sub_float (n : Z) (x : float) : result float :=
  y ← float_of_int n; mret (y - x)%float.

Definition int_add_float (n : Z) (x : float) : result float :=
  y ← float_of_int n; mret (y + x)%float.

(** ** The decoded document *)

Record SelectedIon : Type := {
  selected_ion_mz : option float;     (* key 'selected ion m/z' *)
  charge_state : option Z             (* key 'charge state' *)
}.

Record SelectedIonList : Type := {
  selectedIon : option (list SelectedIon)
}.

Record Precursor : Type := {
  selectedIonList : option SelectedIonList
}.

Record PrecursorList : Type := {
  precursor : option (list Precursor)
}.

Record Spectrum : Type := {
  ms_level : option Z;                (* key 'ms level' *)
  precursorList : option PrecursorList
}.

Abbreviation Document := (list Spectrum).

(** [d.get(key, dflt)] on an optional key. *)
Definition get {A} (field : option A) (dflt : A) : A :=
  match field with
  | Some v => v
  | None => dflt
  end.

Definition empty_PrecursorList : PrecursorList := {| precursor := None |}.
Definition empty_SelectedIonList : SelectedIonList := {| selectedIon := None |}.

(** ** The extractor *)

Definition PROTON_MASS : float := 1.007276466812%float.

(** The three accumulators of [extract_precursor_data]. *)
Record Acc : Type := {
  precursor_mz : list float;
  charge_states : list Z;
  neutral_masses : list float
}.

Definition empty_acc : Acc :=
  {| precursor_mz := []; charge_states := []; neutral_masses := [] |}.

(** Statements of the extractor: accumulator passing, with exceptions. *)
Definition Ext (A : Type) : Type := Acc → result (A * Acc).

Definition ext_ret {A} (a : A) : Ext A := λ st, Ok (a, st).

Definition ext_bind {A B} (m : Ext A) (k : A → Ext B) : Ext B :=
  λ st, match m st with
        | Ok (a, st') => k a st'
        | Raise e => Raise e
        end.

Definition ext_lift {A} (r : result A) : Ext A :=
  λ st, match r with
        | Ok a => Ok (a, st)
        | Raise e => Raise e
        end.

Notation "x ←' m ; k" := (ext_bind m (λ x, k))
  (at level 20, m at level 100, k at level 200, right associativity,
   format "x  ←'  m ;  '/' k").
Notation "m ;;' k" := (ext_bind m (λ _, k))
  (at level 100, k at level 200, right associativity).

Definition append_precursor_mz (x : float) : Ext unit :=
  λ st, Ok (tt, {| precursor_mz := precursor_mz st ++ [x];
                   charge_states := charge_states st;
                   neutral_masses := neutral_masses st |}).

Definition append_charge_states (c : Z) : Ext unit :=
  λ st, Ok (tt, {| precursor_mz := precursor_mz st;
                   charge_states := charge_states st ++ [c];
                   neutral_masses := neutral_masses st |}).

Definition append_neutral_masses (x : float) : Ext unit :=
  λ st, Ok (tt, {| precursor_mz := precursor_mz st;
                   charge_states := charge_states st;
                   neutral_masses := neutral_masses st ++ [x] |}).

(** [for x in xs: body(x)] *)
Fixpoint for_each {A} (xs : list A) (body : A → Ext unit) : Ext unit :=
  match xs with
  | [] => ext_ret tt
  | x :: xs' => body x ;;' for_each xs' body
  end.

(** Lines 30-41: one selected ion. *)
Definition process_ion (ion : SelectedIon) : Ext unit :=
  let mz := selected_ion_mz ion in
  let charge := charge_state ion in
  match mz, charge with
  | Some mz, Some charge =>
      append_precursor_mz mz ;;'
      append_charge_states charge ;;'
      a ←' ext_lift (float_mul_int mz charge);
      b ←' ext_lift (int_mul_float charge PROTON_MASS);
      let neutral_mass := (a - b)%float in
      append_neutral_masses neutral_mass
  | _, _ => ext_ret tt
  end.

(** Lines 26-41: one precursor. *)
Definition process_precursor (p : Precursor) : Ext unit :=
  let selected_ions :=
    get (selectedIon (get (selectedIonList p) empty_SelectedIonList)) [] in
  for_each selected_ions process_ion.

(** [spectrum.get('ms level') == 2] *)
Definition is_ms2 (s : Spectrum) : bool :=
  match ms_level s with
  | Some l => l =? 2
  | None => false
  end.

(** Lines 20-41: one spectrum. *)
Definition process_spectrum (s : Spectrum) : Ext unit :=
  if is_ms2 s then
    let precursor_list := get (precursorList s) empty_PrecursorList in
    let precursors := get (precursor precursor_list) [] in
    for_each precursors process_precursor
  else ext_ret tt.

(** The body of [extract_precursor_data]: lines 15-17 reset the
    accumulators, lines 19-41 walk the document, line 43 returns them. *)
Definition extract_body (doc : Document) : Ext (list float * list Z * list float) :=
  (λ _, Ok (tt, empty_acc)) ;;'
  for_each doc process_spectrum ;;'
  (λ st, Ok ((precursor_mz st, charge_states st, neutral_masses st), st)).

Definition extract_precursor_data (doc : Document)
  : result (list float * list Z * list float) :=
  fst <$> extract_body doc empty_acc.


(** ** Order on binary64 numbers

    Every number other than NaN is given a key in [Z * Z * Z], ordered
    lexicographically: the class (negative infinity, negative, zero,
    positive, positive infinity), then the exponent, then the mantissa,
    the last two negated for negative numbers. *)
Definition sf_key (x : spec_float) : Z * Z * Z :=
  match x with
  | S754_nan => (0, 0, 0)
  | S754_infinity true => (-2, 0, 0)
  | S754_finite true m e => (-1, - e, - Z.pos m)
  | S754_zero _ => (0, 0, 0)
  | S754_finite false m e => (1, e, Z.pos m)
  | S754_infinity false => (2, 0, 0)
  end.

Definition key_lt (a b : Z * Z * Z) : Prop :=
  a.1.1 < b.1.1 ∨
  (a.1.1 = b.1.1 ∧ (a.1.2 < b.1.2 ∨ (a.1.2 = b.1.2 ∧ a.2 < b.2))).

Definition key_le (a b : Z * Z * Z) : Prop :=
  a.1.1 < b.1.1 ∨
  (a.1.1 = b.1.1 ∧ (a.1.2 < b.1.2 ∨ (a.1.2 = b.1.2 ∧ a.2 ≤ b.2))).

Definition float_key (x : float) : Z * Z * Z := sf_key (Prim2SF x).

Definition not_nan (x : float) : Prop := is_nan x = false.

Definition finite (x : float) : Prop :=
  match Prim2SF x with
  | S754_zero _ | S754_finite _ _ _ => True
  | _ => False
  end.

(** A mantissa [M] at exponent [ez] is [m'] at exponent [e']. *)
Definition same_value (M : positive) (ez : Z) (m' : positive) (e' : Z) : Prop :=
  (e' ≤ ez ∧ Z.pos m' = Z.pos M * 2 ^ (ez - e')) ∨
  (ez ≤ e' ∧ Z.pos M = Z.pos m' * 2 ^ (e' - ez)).

(** The binary64 number [h * 2^k], for [h] of fewer than 54 bits: its
    exponent and mantissa, and the number itself. *)
Definition grid_e (h k : Z) : Z := fexp prec emax (Z.log2 (Z.abs h) + 1 + k).

Definition grid_m (h k : Z) : positive :=
  Z.to_pos (Z.abs h * 2 ^ (k - grid_e h k)).

Definition dyadic (h k : Z) : float :=
  SF2Prim (binary_normalize prec emax h k false).

(** [half h] is [h / 2]. *)
Definition half (h : Z) : float := dyadic h (-1).

(** The number [x] is exactly [h / 2]. *)
Definition is_half (x : float) (h : Z) : Prop :=
  match Prim2SF x with
  | S754_zero _ => h = 0
  | S754_finite s m e =>
      e ≤ -1 ∧ (if s then Z.neg m else Z.pos m) = h * 2 ^ (-1 - e)
  | _ => False
  end.

Definition sf_one : spec_float := S754_finite false 4503599627370496 (-52).

(** ** Built-ins used by the aggregator *)

(** [min(xs)] and [max(xs)] on floats: the first element is taken, and a
    later element replaces it when it compares strictly below (above). *)
Definition py_min (xs : list float) : result float :=
  match xs with
  | [] => Raise ValueError
  | x :: xs' => Ok (foldl (λ cur item, if (item <? cur)%float then item else cur) x xs')
  end.

Definition py_max (xs : list float) : result float :=
  match xs with
  | [] => Raise ValueError
  | x :: xs' => Ok (foldl (λ cur item, if (cur <? item)%float then item else cur) x xs')
  end.

(** The same built-ins on ints. *)
Definition py_min_int (xs : list Z) : result Z :=
  match xs with
  | [] => Raise ValueError
  | x :: xs' => Ok (foldl (λ cur item, if item <? cur then item else cur) x xs')
  end.

Definition py_max_int (xs : list Z) : result Z :=
  match xs with
  | [] => Raise ValueError
  | x :: xs' => Ok (foldl (λ cur item, if cur <? item then item else cur) x xs')
  end.

(** [sorted(set(xs))] on ints: the distinct values, ascending. *)
Definition py_set (xs : list Z) : gset Z := list_to_set xs.

Definition sorted (s : gset Z) : list Z := merge_sort Z.le (elements s).

(** [f"{x:.2f}"]: the exact binary value, correctly rounded (ties to even)
    to two decimals. *)
Definition round_half_even_div (n d : Z) : Z :=
  let q := n / d in
  let r := n mod d in
  match 2 * r ?= d with
  | Lt => q
  | Gt => q + 1
  | Eq => if Z.even q then q else q + 1
  end.

Definition hundredths (m : positive) (e : Z) : Z :=
  if 0 <=? e then Z.pos m * 2 ^ e * 100
  else round_half_even_div (Z.pos m * 100) (2 ^ (- e)).

Definition sign_str (s : bool) : string := if s then "-" else "".

Definition two_digits (n : Z) : string :=
  if n <? 10 then "0" +:+ pretty n else pretty n.

Definition format_2f (x : float) : string :=
  match Prim2SF x with
  | S754_nan => "nan"
  | S754_infinity s => sign_str s +:+ "inf"
  | S754_zero s => sign_str s +:+ "0.00"
  | S754_finite s m e =>
      let h := hundredths m e in
      sign_str s +:+ pretty (h / 100) +:+ "." +:+ two_digits (h mod 100)
  end.

(** ** The aggregator *)

Record SummaryStats : Type := {
  total_ms2_spectra : nat;            (* 'Total MS2 Spectra' *)
  precursor_mz_range : string;        (* 'Precursor m/z Range' *)
  neutral_mass_range : string;        (* 'Neutral Mass Range' *)
  charge_states_found : list Z;       (* 'Charge States Found' *)
  mean_mz : string;                   (* 'Mean m/z' *)
  mean_neutral_mass : string          (* 'Mean Neutral Mass' *)
}.

Section Aggregator.

(** [np.mean] is NumPy's; its summation order is the library's own and
    no property below depends on it. *)
Variable np_mean : list float → float.

Definition get_summary_stats
    (precursor_mz : list float) (charge_states : list Z)
    (neutral_masses : list float) : result SummaryStats :=
  let total := length precursor_mz in
  mz_lo ← py_min precursor_mz;
  mz_hi ← py_max precursor_mz;
  nm_lo ← py_min neutral_masses;
  nm_hi ← py_max neutral_masses;
  mret {| total_ms2_spectra := total;
          precursor_mz_range := format_2f mz_lo +:+ " - " +:+ format_2f mz_hi;
          neutral_mass_range :=
            format_2f nm_lo +:+ " - " +:+ format_2f nm_hi +:+ " Da";
          charge_states_found := sorted (py_set charge_states);
          mean_mz := format_2f (np_mean precursor_mz);
          mean_neutral_mass := format_2f (np_mean neutral_masses) +:+ " Da" |}.

End Aggregator.

(** ** The charge-axis bins of [create_histogram_plots] *)

(** [ceil] of a binary64 number, as an integer. *)
Definition float_ceil (x : float) : result Z :=
  match Prim2SF x with
  | S754_nan => Raise ValueError
  | S754_infinity _ => Raise OverflowError
  | S754_zero _ => Ok 0
  | S754_finite s m e =>
      let n := if s then Z.neg m else Z.pos m in
      Ok (if 0 <=? e then n * 2 ^ e else - ((- n) / 2 ^ (- e)))
  end.

(** The C conversion of an array index to a double. *)
Definition double_of_index (i : nat) : float :=
  SF2Prim (binary_normalize prec emax (Z.of_nat i) 0 false).

(** The length of [np.arange]: the [ceil] of the quotient, as an array
    index.  NumPy reports a NaN quotient, an infinite one and a length
    outside the index range as [ValueError]; a length of exactly 2^63
    passes the range test and wraps to a negative index in the conversion. *)
Definition arange_length (value : float) : result Z :=
  match float_ceil value with
  | Raise _ => Raise ValueError
  | Ok len =>
      if (len <? - 2 ^ 63) || (2 ^ 63 <? len) then Raise ValueError
      else if len =? 2 ^ 63 then Ok (- 2 ^ 63)
      else Ok len
  end.

(** [np.arange(start, stop, step)] for float bounds and an int step:
    the length is [ceil((stop - start) / step)], and a length that is not
    positive gives the empty array; the first two elements are [start] and
    [start + step], and element [i >= 2] is [start + i * delta] with
    [delta] the difference of the first two.  Memory exhaustion is not
    modelled. *)
Definition np_arange (start stop : float) (step : Z) : result (list float) :=
  step_f ← float_of_int step;
  if step =? 0 then Raise ZeroDivisionError
  else
    len ← arange_length ((stop - start) / step_f)%float;
    if len <=? 0 then mret []
    else
      let next := (start + step_f)%float in
      let delta := (next - start)%float in
      mret (take (Z.to_nat len)
              (start :: next ::
               map (λ i, (start + double_of_index i * delta)%float)
                   (seq 2 (Z.to_nat len - 2)))).

(** Lines 66-67. *)
Definition charge_bins (charge_states : list Z) : result (list float) :=
  let unique_charges := sorted (py_set charge_states) in
  lo ← py_min_int unique_charges;
  start ← int_sub_float lo 0.5;
  hi ← py_max_int unique_charges;
  stop ← int_add_float hi 1.5;
  np_arange start stop 1.

(** The bin of [np.histogram] that holds [x]: bins are half-open on the
    right, except the last one, which is closed. *)
Definition in_bin (edges : list float) (k : nat) (x : float) : bool :=
  match edges !! k, edges !! S k with
  | Some lo, Some hi =>
      (lo <=? x)%float &&
      (if decide (S (S k) = length edges) then (x <=? hi)%float else (x <? hi)%float)
  | _, _ => false
  end.

(** ** The traversal in the words of the specification

    One [Observation] per selected ion that carries both fields, in
    document order; these definitions are what the loops above are compared
    with. *)

Record Observation : Type := {
  obs_mz : float;
  obs_charge : Z;
  obs_neutral_mass : float
}.

Definition derive_neutral_mass (mz : float) (charge : Z) : result float :=
  c ← float_of_int charge;
  mret ((mz * c) - (c * PROTON_MASS))%float.

Definition precursor_ions (p : Precursor) : list SelectedIon :=
  get (selectedIon (get (selectedIonList p) empty_SelectedIonList)) [].

Definition spectrum_precursors (s : Spectrum) : list Precursor :=
  get (precursor (get (precursorList s) empty_PrecursorList)) [].

(** The selected ions the walk visits in a spectrum, in order. *)
Definition spectrum_ions (s : Spectrum) : list SelectedIon :=
  if is_ms2 s then flat_map precursor_ions (spectrum_precursors s) else [].

Definition document_ions (doc : Document) : list SelectedIon :=
  flat_map spectrum_ions doc.

(** The two fields of an ion that carries both. *)
Definition complete (ion : SelectedIon) : option (float * Z) :=
  match selected_ion_mz ion, charge_state ion with
  | Some mz, Some charge => Some (mz, charge)
  | _, _ => None
  end.

Definition observe (mc : float * Z) : result Observation :=
  nm ← derive_neutral_mass mc.1 mc.2;
  mret {| obs_mz := mc.1; obs_charge := mc.2; obs_neutral_mass := nm |}.

(** All-or-nothing map: the first exception aborts the whole walk. *)
Fixpoint traverse {A B} (f : A → result B) (xs : list A) : result (list B) :=
  match xs with
  | [] => Ok []
  | x :: xs' => y ← f x; ys ← traverse f xs'; mret (y :: ys)
  end.

Definition columns (obs : list Observation) : list float * list Z * list float :=
  (obs_mz <$> obs, obs_charge <$> obs, obs_neutral_mass <$> obs).

Definition document_observations (doc : Document) : result (list Observation) :=
  traverse observe (omap complete (document_ions doc)).

Definition push (st : Acc) (obs : list Observation) : Acc :=
  {| precursor_mz := precursor_mz st ++ (obs_mz <$> obs);
     charge_states := charge_states st ++ (obs_charge <$> obs);
     neutral_masses := neutral_masses st ++ (obs_neutral_mass <$> obs) |}.

(** Column-wise concatenation of per-spectrum results. *)
Definition join_columns (blocks : list (list float * list Z * list float))
  : list float * list Z * list float :=
  (mjoin ((λ b, b.1.1) <$> blocks),
   mjoin ((λ b, b.1.2) <$> blocks),
   mjoin ((λ b, b.2) <$> blocks)).

(** Positions [(i, j, k)]: spectrum [i], its precursor [j], that
    precursor's selected ion [k]. *)
Definition Position : Type := nat * nat * nat.

Definition ion_at (doc : Document) (p : Position) : option SelectedIon :=
  s ← doc !! p.1.1;
  pr ← (if is_ms2 s then spectrum_precursors s !! p.1.2 else None);
  precursor_ions pr !! p.2.

Definition position_lt (p q : Position) : Prop :=
  (p.1.1 < q.1.1 ∨
   (p.1.1 = q.1.1 ∧ (p.1.2 < q.1.2 ∨ (p.1.2 = q.1.2 ∧ p.2 < q.2))))%nat.

(** The positions of the walk, enumerated scan by scan, precursor by
    precursor, ion by ion. *)
Definition precursor_positions (i j : nat) (pr : Precursor) : list Position :=
  (λ k, (i, j, k)) <$> seq 0 (length (precursor_ions pr)).

Definition spectrum_positions (i : nat) (s : Spectrum) : list Position :=
  if is_ms2 s
  then mjoin (imap (precursor_positions i) (spectrum_precursors s))
  else [].

Definition walk_positions (doc : Document) : list Position :=
  mjoin (imap spectrum_positions doc).

Definition qualifying (doc : Document) (p : Position) : bool :=
  match ion_at doc p ≫= complete with
  | Some _ => true
  | None => false
  end.

Definition qualifying_positions (doc : Document) : list Position :=
  filter (λ p, qualifying doc p = true) (walk_positions doc).

(** The columns a spectrum contributes on its own. *)
Definition block (s : Spectrum) : list float * list Z * list float :=
  match extract_precursor_data [s] with
  | Ok b => b
  | Raise _ => ([], [], [])
  end.

(** A loop body [emits] the pairs [f x] when running it appends exactly
    their observations, or raises what deriving them raises. *)
Definition emits {A} (body : A → Ext unit) (f : A → list (float * Z)) : Prop :=
  ∀ x st, body x st =
          match traverse observe (f x) with
          | Ok obs => Ok (tt, push st obs)
          | Raise e => Raise e
          end.

(** The edges the specification asks for: [c - 0.5] for every integer [c]
    from [lo] to [hi + 1], that is [c - 0.5] and [c + 0.5] for every integer
    charge from [lo] to [hi]. *)
Definition centred_edges (lo hi : Z) : list float :=
  (λ i, half (2 * (lo + Z.of_nat i) - 1)) <$> seq 0 (Z.to_nat (hi - lo + 2)).

(** Line 68: the charge histogram.  [np.histogram] counts, for each bin,
    the values that fall in it; the int charges are compared as floats. *)
Definition histogram_counts (edges : list float) (xs : list float) : list nat :=
  (λ k, length (filter (λ x, in_bin edges k x = true) xs))
    <$> seq 0 (length edges - 1).

Definition charge_histogram (charge_states : list Z)
  : result (list float * list nat) :=
  edges ← charge_bins charge_states;
  xs ← traverse float_of_int charge_states;
  mret (edges, histogram_counts edges xs).

(** ** List objects

    The accumulators of [extract_precursor_data] are Python list objects:
    [[]] creates a new object, [append] changes an object in place, and a
    name holds a reference to one.  The store holds the list objects of the
    whole process, whoever created them, so that what a call does to the
    lists of another call can be stated. *)

Abbreviation loc := positive.

Record store : Type := {
  float_lists : gmap loc (list float);
  int_lists : gmap loc (list Z)
}.

Definition empty_store : store := {| float_lists := ∅; int_lists := ∅ |}.

(** The objects that exist. *)
Definition allocated (σ : store) : gset loc :=
  dom (float_lists σ) ∪ dom (int_lists σ).

(** Statements over the store.  An exception keeps the store as it is at
    the [raise]: what was appended before stays appended. *)
Definition Py (A : Type) : Type := store → result A * store.

Definition py_ret {A} (a : A) : Py A := λ σ, (Ok a, σ).

Definition py_bind {A B} (m : Py A) (k : A → Py B) : Py B :=
  λ σ, match m σ with
       | (Ok a, σ') => k a σ'
       | (Raise e, σ') => (Raise e, σ')
       end.

Definition py_lift {A} (r : result A) : Py A := λ σ, (r, σ).

Notation "x ←ₛ m ; k" := (py_bind m (λ x, k))
  (at level 20, m at level 100, k at level 200, right associativity,
   format "x  ←ₛ  m ;  '/' k").
Notation "m ;;ₛ k" := (py_bind m (λ _, k))
  (at level 100, k at level 200, right associativity).

(** [[]]: a new, empty list object. *)
Definition new_float_list : Py loc :=
  λ σ, let l := fresh (allocated σ) in
       (Ok l, {| float_lists := <[l := []]> (float_lists σ);
                 int_lists := int_lists σ |}).

Definition new_int_list : Py loc :=
  λ σ, let l := fresh (allocated σ) in
       (Ok l, {| float_lists := float_lists σ;
                 int_lists := <[l := []]> (int_lists σ) |}).

(** [xs.append(x)]: the object [xs] refers to is changed in place. *)
Definition float_list_append (xs : loc) (x : float) : Py unit :=
  λ σ, (Ok tt, {| float_lists := alter (λ l, l ++ [x]) xs (float_lists σ);
                  int_lists := int_lists σ |}).

Definition int_list_append (xs : loc) (x : Z) : Py unit :=
  λ σ, (Ok tt, {| float_lists := float_lists σ;
                  int_lists := alter (λ l, l ++ [x]) xs (int_lists σ) |}).

(** [for x in xs: body(x)] *)
Fixpoint py_for {A} (xs : list A) (body : A → Py unit) : Py unit :=
  match xs with
  | [] => py_ret tt
  | x :: xs' => body x ;;ₛ py_for xs' body
  end.

(** Lines 30-41 on list objects; the three names are the local variables
    of the enclosing call. *)
Definition process_ion_heap (precursor_mz charge_states neutral_masses : loc)
    (ion : SelectedIon) : Py unit :=
  let mz := selected_ion_mz ion in
  let charge := charge_state ion in
  match mz, charge with
  | Some mz, Some charge =>
      float_list_append precursor_mz mz ;;ₛ
      int_list_append charge_states charge ;;ₛ
      a ←ₛ py_lift (float_mul_int mz charge);
      b ←ₛ py_lift (int_mul_float charge PROTON_MASS);
      let neutral_mass := (a - b)%float in
      float_list_append neutral_masses neutral_mass
  | _, _ => py_ret tt
  end.

(** Lines 26-41. *)
Definition process_precursor_heap
    (precursor_mz charge_states neutral_masses : loc)
    (p : Precursor) : Py unit :=
  let selected_ions :=
    get (selectedIon (get (selectedIonList p) empty_SelectedIonList)) [] in
  py_for selected_ions
    (process_ion_heap precursor_mz charge_states neutral_masses).

(** Lines 20-41. *)
Definition process_spectrum_heap
    (precursor_mz charge_states neutral_masses : loc)
    (s : Spectrum) : Py unit :=
  if is_ms2 s then
    let precursor_list := get (precursorList s) empty_PrecursorList in
    let precursors := get (precursor precursor_list) [] in
    py_for precursors
      (process_precursor_heap precursor_mz charge_states neutral_masses)
  else py_ret tt.

(** Lines 15-43: the three lists are created, the document is walked, and
    the references to the three lists are returned. *)
Definition extract_precursor_data_heap (doc : Document)
  : Py (loc * loc * loc) :=
  precursor_mz ←ₛ new_float_list;
  charge_states ←ₛ new_int_list;
  neutral_masses ←ₛ new_float_list;
  py_for doc (process_spectrum_heap precursor_mz charge_states neutral_masses) ;;ₛ
  py_ret (precursor_mz, charge_states, neutral_masses).

(** The lists behind three references, when all three exist. *)
Definition contents (σ : store) (refs : loc * loc * loc)
  : option (list float * list Z * list float) :=
  let '(a, b, c) := refs in
  mzs ← float_lists σ !! a;
  chs ← int_lists σ !! b;
  nms ← float_lists σ !! c;
  Some (mzs, chs, nms).

(** What the caller of [extract_precursor_data] gets: the exception, or
    the three lists as they are when the call returns. *)
Definition returned (run : result (loc * loc * loc) * store)
  : result (option (list float * list Z * list float)) :=
  contents (run.2) <$> run.1.

(** Reading the list a name refers to.  A name always refers to an object
    that exists; the default is never taken. *)
Definition float_list_read (xs : loc) : Py (list float) :=
  λ σ, (Ok (default [] (float_lists σ !! xs)), σ).

Definition int_list_read (xs : loc) : Py (list Z) :=
  λ σ, (Ok (default [] (int_lists σ !! xs)), σ).

(** Lines 78-90 on list objects: the three arguments are read, no list is
    written, and the statistics are new values. *)
Definition get_summary_stats_heap (np_mean : list float → float)
    (precursor_mz charge_states neutral_masses : loc) : Py SummaryStats :=
  mzs ←ₛ float_list_read precursor_mz;
  chs ←ₛ int_list_read charge_states;
  nms ←ₛ float_list_read neutral_masses;
  py_lift (get_summary_stats np_mean mzs chs nms).

(** The lists that exist in [σ] are the same in [σ']. *)
Definition preserved (σ σ' : store) : Prop :=
  ∀ l, l ∈ allocated σ →
       float_lists σ' !! l = float_lists σ !! l ∧
       int_lists σ' !! l = int_lists σ !! l.

(** The store while a call runs: the lists that existed at entry, and the
    three accumulators of the call. *)
Definition with_acc (σ : store) (a b c : loc) (st : Acc) : store :=
  {| float_lists :=
       <[c := neutral_masses st]> (<[a := precursor_mz st]> (float_lists σ));
     int_lists := <[b := charge_states st]> (int_lists σ) |}.

(** A statement over the store [simulates] a statement over the
    accumulators when, run on the store that holds the accumulators at
    [a], [b] and [c], it has the same outcome and leaves the store holding
    the new accumulators at the same places. *)
Definition simulates {A} (σ : store) (a b c : loc)
    (mh : Py A) (m : Ext A) : Prop :=
  ∀ st, ∃ st',
    mh (with_acc σ a b c st) = (fst <$> m st, with_acc σ a b c st') ∧
    ∀ x st'', m st = Ok (x, st'') → st' = st''.

(** The objects three references name. *)
Definition names (refs : loc * loc * loc) : gset loc :=
  let '(a, b, c) := refs in {[a; b; c]}.

(** ** Example documents *)

Definition ion_a : SelectedIon :=
  {| selected_ion_mz := Some 500.25%float; charge_state := Some 2 |}.
Definition ion_b : SelectedIon :=
  {| selected_ion_mz := Some 623.5%float; charge_state := Some 3 |}.
Definition ion_no_charge : SelectedIon :=
  {| selected_ion_mz := Some 410.0%float; charge_state := None |}.
Definition ion_no_mz : SelectedIon :=
  {| selected_ion_mz := None; charge_state := Some 2 |}.
Definition ion_zero_charge : SelectedIon :=
  {| selected_ion_mz := Some 700.125%float; charge_state := Some 0 |}.
Definition ion_huge_charge : SelectedIon :=
  {| selected_ion_mz := Some 500.25%float; charge_state := Some (2 ^ 1024) |}.

Definition precursor_of (ions : list SelectedIon) : Precursor :=
  {| selectedIonList := Some {| selectedIon := Some ions |} |}.

Definition spectrum_of (level : Z) (ps : list Precursor) : Spectrum :=
  {| ms_level := Some level;
     precursorList := Some {| precursor := Some ps |} |}.

Definition ms1_scan : Spectrum := spectrum_of 1 [precursor_of [ion_b]].
Definition unlevelled_scan : Spectrum :=
  {| ms_level := None;
     precursorList := Some {| precursor := Some [precursor_of [ion_a]] |} |}.
Definition ms2_scan : Spectrum :=
  spectrum_of 2 [precursor_of [ion_a; ion_no_charge]; precursor_of [ion_no_mz; ion_b]].
Definition ms2_scan' : Spectrum := spectrum_of 2 [precursor_of [ion_zero_charge]].
Definition ms2_no_precursors : Spectrum := spectrum_of 2 [].
Definition ms2_no_precursor_list : Spectrum :=
  {| ms_level := Some 2; precursorList := None |}.

Definition single_ion_doc : Document := [spectrum_of 2 [precursor_of [ion_a]]].
Definition example_doc : Document :=
  [ms1_scan; ms2_scan; ms2_no_precursors; unlevelled_scan; ms2_scan'].
Definition huge_charge_doc : Document := [spectrum_of 2 [precursor_of [ion_huge_charge]]].

(** A document whose second ion has a positive m/z and a positive but
    enormous charge: both products overflow and their difference is NaN. *)
Definition ion_c : SelectedIon :=
  {| selected_ion_mz := Some 2%float; charge_state := Some 1 |}.
Definition ion_overflowing : SelectedIon :=
  {| selected_ion_mz := Some 2%float; charge_state := Some (2 ^ 1024 - 2 ^ 971) |}.
Definition overflowing_doc : Document :=
  [spectrum_of 2 [precursor_of [ion_c; ion_overflowing]]].

Definition example_observations : list Observation :=
  match document_observations example_doc with
  | Ok obs => obs
  | Raise _ => []
  end.

Definition negative_charge_doc : Document :=
  [spectrum_of 2 [precursor_of
     [ion_zero_charge;
      {| selected_ion_mz := Some 410.5%float; charge_state := Some (-3) |};
      {| selected_ion_mz := Some 300%float; charge_state := Some (2 ^ 40) |}]]].

(** A store in which two lists exist before any call, a call from it, and
    a second call, which raises, from the store the first call left. *)
Definition example_store : store :=
  {| float_lists := {[ 1%positive := [1.5%float] ]};
     int_lists := {[ 2%positive := [7] ]} |}.
Definition first_run : result (loc * loc * loc) * store :=
  extract_precursor_data_heap example_doc example_store.
Definition second_run : result (loc * loc * loc) * store :=
  extract_precursor_data_heap huge_charge_doc (first_run.2).

(** * Properties *)

(** ** The result monad and the accumulators *)

Lemma traverse_app {A B} (f : A → result B) (xs ys : list A) :
  traverse f (xs ++ ys) =
  (a ← traverse f xs; b ← traverse f ys; mret (a ++ b)).
Proof.
  induction xs as [|x xs IH]; simpl.
  - by destruct (traverse f ys).
  - destruct (f x) as [y|e]; simpl; [|done].
    rewrite IH. destruct (traverse f xs); simpl; [|done].
    by destruct (traverse f ys).
Qed.

Lemma traverse_Ok_length {A B} (f : A → result B) xs ys :
  traverse f xs = Ok ys → length ys = length xs.
Proof.
  revert ys. induction xs as [|x xs IH]; intros ys; simpl.
  - by intros [= <-].
  - destruct (f x); simpl; [|done].
    destruct (traverse f xs); simpl; [|done].
    intros [= <-]. simpl. f_equal. by apply IH.
Qed.

Lemma traverse_Ok_lookup {A B} (f : A → result B) xs ys i x :
  traverse f xs = Ok ys → xs !! i = Some x →
  ∃ y, ys !! i = Some y ∧ f x = Ok y.
Proof.
  revert ys i. induction xs as [|x' xs IH]; intros ys i; simpl; [done|].
  destruct (f x') as [y'|] eqn:Hx; simpl; [|done].
  destruct (traverse f xs) as [ys'|]; simpl; [|done].
  intros [= <-]. destruct i as [|i]; simpl.
  - intros [= ->]. eauto.
  - intros Hi. by apply IH.
Qed.

Lemma traverse_Ok_iff {A B} (f : A → result B) xs :
  is_Ok (traverse f xs) ↔ Forall (λ x, is_Ok (f x)) xs.
Proof.
  induction xs as [|x xs IH]; simpl.
  - split; [constructor | by eexists].
  - rewrite Forall_cons, <- IH. unfold is_Ok.
    destruct (f x) as [y|e]; simpl.
    + destruct (traverse f xs) as [ys|e]; simpl; split.
      * intros _. split; by eexists.
      * intros _. by eexists.
      * by intros [? ?].
      * by intros [_ [? ?]].
    + split; [by intros [? ?] | by intros [[? ?] _]].
Qed.

Lemma push_nil st : push st [] = st.
Proof. destruct st; unfold push; simpl. by rewrite !app_nil_r. Qed.

Lemma push_app st a b : push (push st a) b = push st (a ++ b).
Proof. unfold push; simpl. by rewrite !fmap_app, !app_assoc. Qed.

Lemma omap_flat_map {A B C} (f : B → option C) (g : A → list B) xs :
  omap f (flat_map g xs) = flat_map (λ x, omap f (g x)) xs.
Proof.
  induction xs as [|x xs IH]; simpl; [done|].
  by rewrite omap_app, IH.
Qed.

(** ** The loops against the traversal *)

Lemma for_each_emits {A} (body : A → Ext unit) f xs st :
  emits body f →
  for_each xs body st =
  match traverse observe (flat_map f xs) with
  | Ok obs => Ok (tt, push st obs)
  | Raise e => Raise e
  end.
Proof.
  intros Hbody. revert st. induction xs as [|x xs IH]; intros st; simpl.
  - unfold ext_ret. by rewrite push_nil.
  - unfold ext_bind. rewrite Hbody, traverse_app.
    destruct (traverse observe (f x)) as [o1|e]; simpl; [|done].
    rewrite IH.
    destruct (traverse observe (flat_map f xs)) as [o2|e]; simpl; [|done].
    by rewrite push_app.
Qed.

Lemma process_ion_emits :
  emits process_ion (λ ion, option_list (complete ion)).
Proof.
  intros [[mz|] [c|]] st; unfold process_ion, complete; simpl;
    try (unfold ext_ret; by rewrite push_nil).
  unfold ext_bind, ext_lift, append_precursor_mz, append_charge_states,
    append_neutral_masses, observe, derive_neutral_mass,
    float_mul_int, int_mul_float; simpl.
  destruct (float_of_int c) as [cf|e]; simpl; done.
Qed.

Lemma process_precursor_emits :
  emits process_precursor (λ p, omap complete (precursor_ions p)).
Proof.
  intros p st. unfold process_precursor.
  rewrite (for_each_emits _ _ _ _ process_ion_emits).
  fold (precursor_ions p).
  replace (flat_map (λ ion, option_list (complete ion)) (precursor_ions p))
    with (omap complete (precursor_ions p)); [done|].
  induction (precursor_ions p) as [|ion l IH]; simpl; [done|].
  rewrite <- IH. by destruct (complete ion).
Qed.

Lemma process_spectrum_emits :
  emits process_spectrum (λ s, omap complete (spectrum_ions s)).
Proof.
  intros s st. unfold process_spectrum, spectrum_ions.
  destruct (is_ms2 s); simpl.
  - fold (spectrum_precursors s).
    rewrite (for_each_emits _ _ _ _ process_precursor_emits).
    by rewrite omap_flat_map.
  - unfold ext_ret. by rewrite push_nil.
Qed.

Lemma for_each_spectrum doc st :
  for_each doc process_spectrum st =
  match traverse observe (omap complete (document_ions doc)) with
  | Ok obs => Ok (tt, push st obs)
  | Raise e => Raise e
  end.
Proof.
  rewrite (for_each_emits _ _ _ _ process_spectrum_emits).
  unfold document_ions. by rewrite omap_flat_map.
Qed.

Lemma extract_body_spec doc st :
  extract_body doc st =
  match document_observations doc with
  | Ok obs => Ok (columns obs, push empty_acc obs)
  | Raise e => Raise e
  end.
Proof.
  unfold extract_body, ext_bind. rewrite for_each_spectrum.
  unfold document_observations.
  by destruct (traverse observe _).
Qed.

Lemma extract_precursor_data_spec doc :
  extract_precursor_data doc = columns <$> document_observations doc.
Proof.
  unfold extract_precursor_data. rewrite extract_body_spec.
  by destruct (document_observations doc).
Qed.

(** ** Derived facts about the extractor *)

Lemma extract_Ok_observations doc mzs chs nms :
  extract_precursor_data doc = Ok (mzs, chs, nms) →
  ∃ obs, document_observations doc = Ok obs ∧
         mzs = obs_mz <$> obs ∧ chs = obs_charge <$> obs ∧
         nms = obs_neutral_mass <$> obs.
Proof.
  rewrite extract_precursor_data_spec.
  destruct (document_observations doc) as [obs|e]; simpl; [|done].
  intros [= <- <- <-]. by exists obs.
Qed.

Lemma observe_Ok mc o :
  observe mc = Ok o →
  ∃ c, float_of_int mc.2 = Ok c ∧
       o = {| obs_mz := mc.1; obs_charge := mc.2;
              obs_neutral_mass := (mc.1 * c - c * PROTON_MASS)%float |}.
Proof.
  unfold observe, derive_neutral_mass.
  destruct (float_of_int mc.2) as [c|e]; simpl; [|done].
  intros [= <-]. by exists c.
Qed.

Lemma observe_is_Ok mc : is_Ok (observe mc) ↔ is_Ok (float_of_int mc.2).
Proof.
  unfold observe, derive_neutral_mass, is_Ok.
  destruct (float_of_int mc.2) as [c|e]; simpl.
  - split; intros _; by eexists.
  - split; by intros [? ?].
Qed.

(** The extractor returns exactly when every charge it meets converts. *)
Lemma extract_is_Ok doc :
  is_Ok (extract_precursor_data doc) ↔
  Forall (λ mc : float * Z, is_Ok (float_of_int mc.2))
         (omap complete (document_ions doc)).
Proof.
  rewrite extract_precursor_data_spec. unfold document_observations.
  rewrite <- (Forall_iff _ _ _ observe_is_Ok), <- traverse_Ok_iff.
  unfold is_Ok. destruct (traverse observe _); simpl.
  - split; intros _; by eexists.
  - split; by intros [? ?].
Qed.

(** The only exception the extractor raises is the int-to-float overflow:
    every container access has a default. *)
Lemma observe_Raise mc e : observe mc = Raise e → e = OverflowError.
Proof.
  unfold observe, derive_neutral_mass, float_of_int.
  destruct (binary_normalize prec emax mc.2 0 false); simpl; try done.
  by intros [= <-].
Qed.

Lemma traverse_observe_Raise l e :
  traverse observe l = Raise e → e = OverflowError.
Proof.
  induction l as [|mc l IH]; simpl; [done|].
  destruct (observe mc) as [o|e'] eqn:Ho; simpl.
  - destruct (traverse observe l) as [os|e'']; simpl; [done|].
    intros [= <-]. by apply IH.
  - intros [= <-]. by apply observe_Raise in Ho.
Qed.

Lemma complete_is_Some ion :
  is_Some (complete ion) ↔
  is_Some (selected_ion_mz ion) ∧ is_Some (charge_state ion).
Proof.
  unfold complete.
  destruct (selected_ion_mz ion) as [mz|], (charge_state ion) as [c|]; simpl.
  - split; [intros _; split; by eexists | intros _; by eexists].
  - split; [by intros [? ?] | by intros [_ [? ?]]].
  - split; [by intros [? ?] | by intros [[? ?] _]].
  - split; [by intros [? ?] | by intros [[? ?] _]].
Qed.

(** ** Claims about the extractor *)

(** C1. Every index [i] of the extractor's output lists holds an m/z
    value, a charge and a neutral mass with
    [neutral_mass = (mz * charge) - (charge * 1.007276466812)], the charge
    being converted to a float as Python does; the three lists have one
    length, and the proton mass is the fixed constant [1.007276466812]. *)
Theorem C1_neutral_mass_formula doc mzs chs nms :
  extract_precursor_data doc = Ok (mzs, chs, nms) →
  PROTON_MASS = 1.007276466812%float ∧
  length chs = length mzs ∧ length nms = length mzs ∧
  ∀ i, (i < length mzs)%nat →
    ∃ mz charge c,
      mzs !! i = Some mz ∧ chs !! i = Some charge ∧
      float_of_int charge = Ok c ∧
      nms !! i = Some ((mz * c) - (c * 1.007276466812))%float.
Proof.
  intros (obs & Hobs & -> & -> & ->)%extract_Ok_observations.
  split; [done|]. rewrite !length_fmap. do 2 (split; [done|]).
  intros i Hi.
  destruct (lookup_lt_is_Some_2 obs i Hi) as [o Ho].
  unfold document_observations in Hobs.
  pose proof (traverse_Ok_length _ _ _ Hobs) as Hlen.
  destruct (lookup_lt_is_Some_2 (omap complete (document_ions doc)) i)
    as [mc Hmc]; [lia|].
  destruct (traverse_Ok_lookup _ _ _ _ _ Hobs Hmc) as (o' & Ho' & Hobserve).
  assert (o' = o) as -> by congruence.
  apply observe_Ok in Hobserve as (c & Hc & ->).
  exists mc.1, mc.2, c. rewrite !list_lookup_fmap, Ho. simpl. done.
Qed.

Lemma C1_neutral_mass_formula_witness :
  extract_precursor_data single_ion_doc
    = Ok ([500.25%float], [2], [998.48544706637597%float]) ∧
  ∃ mz charge c,
    [500.25%float] !! 0%nat = Some mz ∧ [2] !! 0%nat = Some charge ∧
    float_of_int charge = Ok c ∧
    [998.48544706637597%float] !! 0%nat
      = Some ((mz * c) - (c * 1.007276466812))%float.
Proof.
  assert (extract_precursor_data single_ion_doc
            = Ok ([500.25%float], [2], [998.48544706637597%float])) as H
    by (vm_compute; reflexivity).
  split; [exact H|].
  destruct (C1_neutral_mass_formula _ _ _ _ H) as (_ & _ & _ & Hi).
  apply (Hi 0%nat). simpl. lia.
Defined.

Lemma is_ms2_false s : ms_level s ≠ Some 2 → is_ms2 s = false.
Proof.
  unfold is_ms2. destruct (ms_level s) as [l|]; [|done].
  intros Hl. apply Z.eqb_neq. congruence.
Qed.

Lemma is_ms2_true s : ms_level s = Some 2 → is_ms2 s = true.
Proof. unfold is_ms2. by intros ->. Qed.

Lemma extract_app doc1 doc2 :
  document_ions (doc1 ++ doc2) = document_ions doc1 ++ document_ions doc2.
Proof. unfold document_ions. by rewrite flat_map_app. Qed.

(** C2. A spectrum whose MS level is absent or different from 2 leaves the
    accumulators as they are and raises nothing, whatever precursors and
    selected ions it carries; dropping it from a document does not change
    what the extractor returns. *)
Theorem C2_non_ms2_skipped (s : Spectrum) :
  ms_level s ≠ Some 2 →
  (∀ st, process_spectrum s st = Ok (tt, st)) ∧
  spectrum_ions s = [] ∧
  ∀ before after,
    extract_precursor_data (before ++ s :: after)
    = extract_precursor_data (before ++ after).
Proof.
  intros Hs%is_ms2_false. split; [|split].
  - intros st. unfold process_spectrum. by rewrite Hs.
  - unfold spectrum_ions. by rewrite Hs.
  - intros before after. rewrite !extract_precursor_data_spec.
    unfold document_observations.
    replace (before ++ s :: after) with (before ++ [s] ++ after) by done.
    assert (document_ions [s] = []) as Hnone.
    { unfold document_ions, spectrum_ions. simpl. by rewrite Hs. }
    by rewrite !extract_app, Hnone.
Qed.

Lemma C2_non_ms2_skipped_witness :
  ms_level ms1_scan ≠ Some 2 ∧
  (∀ st, process_spectrum ms1_scan st = Ok (tt, st)) ∧
  extract_precursor_data [ms2_scan; ms1_scan; ms2_scan']
  = extract_precursor_data [ms2_scan; ms2_scan'].
Proof.
  assert (ms_level ms1_scan ≠ Some 2) as H by (simpl; congruence).
  split; [exact H|].
  destruct (C2_non_ms2_skipped ms1_scan H) as (H1 & _ & H2).
  split; [exact H1|]. exact (H2 [ms2_scan] [ms2_scan']).
Defined.

(** The ions that carry both fields. *)
Lemma length_omap_complete (ions : list SelectedIon) :
  length (omap complete ions)
  = length (filter (λ ion, is_Some (selected_ion_mz ion) ∧
                           is_Some (charge_state ion)) ions).
Proof.
  induction ions as [|ion ions IH]; [done|].
  rewrite filter_cons.
  change (omap complete (ion :: ions))
    with (match complete ion with
          | Some mc => mc :: omap complete ions
          | None => omap complete ions
          end).
  pose proof (complete_is_Some ion) as Hc.
  destruct (decide _) as [Hboth|Hnot].
  - apply Hc in Hboth as [mc ->]. simpl. by rewrite IH.
  - destruct (complete ion) as [mc|] eqn:E; [|done].
    exfalso. apply Hnot, Hc. by eexists.
Qed.

(** C3. A selected ion that lacks its m/z or its charge leaves the
    accumulators as they are and raises nothing; whenever the extractor
    returns, each of its lists has as many entries as there are selected
    ions with both fields in the MS2 spectra, and it does return when every
    such ion's charge converts to a float. *)
Theorem C3_incomplete_ions_skipped (doc : Document) :
  let both := λ ion, is_Some (selected_ion_mz ion) ∧ is_Some (charge_state ion) in
  (∀ ion st, selected_ion_mz ion = None ∨ charge_state ion = None →
             process_ion ion st = Ok (tt, st)) ∧
  (∀ mzs chs nms,
     extract_precursor_data doc = Ok (mzs, chs, nms) →
     length mzs = length (filter both (document_ions doc)) ∧
     length chs = length (filter both (document_ions doc)) ∧
     length nms = length (filter both (document_ions doc))) ∧
  (Forall (λ ion, ∀ c, charge_state ion = Some c → is_Ok (float_of_int c))
          (document_ions doc) →
   is_Ok (extract_precursor_data doc)).
Proof.
  intros both. split; [|split].
  - intros [mz c] st [H|H]; simpl in H; subst; unfold process_ion; simpl;
      [done | by destruct mz].
  - intros mzs chs nms (obs & Hobs & -> & -> & ->)%extract_Ok_observations.
    unfold document_observations in Hobs.
    apply traverse_Ok_length in Hobs.
    rewrite !length_fmap, Hobs, length_omap_complete. done.
  - intros Hall. apply extract_is_Ok.
    apply Forall_forall. intros [mz c] Hin.
    apply list_elem_of_omap in Hin as (ion & Hion & Hcomplete).
    rewrite Forall_forall in Hall. apply (Hall ion Hion). simpl.
    unfold complete in Hcomplete.
    destruct (selected_ion_mz ion), (charge_state ion); congruence.
Qed.

Lemma C3_incomplete_ions_skipped_witness :
  process_ion ion_no_charge empty_acc = Ok (tt, empty_acc) ∧
  process_ion ion_no_mz empty_acc = Ok (tt, empty_acc) ∧
  ∃ mzs chs nms,
    extract_precursor_data example_doc = Ok (mzs, chs, nms) ∧
    length mzs = 3%nat ∧ length chs = 3%nat ∧ length nms = 3%nat.
Proof.
  destruct (C3_incomplete_ions_skipped example_doc) as (Hskip & Hcount & Htotal).
  split; [apply Hskip; right; reflexivity|].
  split; [apply Hskip; left; reflexivity|].
  destruct Htotal as [[[mzs chs] nms] Hok].
  { repeat constructor; intros c [= <-]; vm_compute; by eexists. }
  exists mzs, chs, nms. split; [exact Hok|].
  exact (Hcount mzs chs nms Hok).
Defined.

(** C5. A spectrum of MS level 2 whose precursor list is absent or empty
    leaves the accumulators as they are and raises nothing; the same holds
    for a precursor whose selected-ion list is absent or empty, since each
    missing container defaults to the empty collection; and no container
    access raises: the extractor's only exception is the int-to-float
    overflow of a charge. *)
Theorem C5_empty_precursor_list (s : Spectrum) :
  ms_level s = Some 2 →
  (precursorList s = None ∨
   ∃ pl, precursorList s = Some pl ∧
         (precursor pl = None ∨ precursor pl = Some [])) →
  (∀ st, process_spectrum s st = Ok (tt, st)) ∧
  extract_precursor_data [s] = Ok ([], [], []) ∧
  (∀ p st,
     (selectedIonList p = None ∨
      ∃ sl, selectedIonList p = Some sl ∧
            (selectedIon sl = None ∨ selectedIon sl = Some [])) →
     process_precursor p st = Ok (tt, st)) ∧
  (∀ doc e, extract_precursor_data doc = Raise e → e = OverflowError).
Proof.
  intros Hlevel%is_ms2_true Hempty.
  assert (spectrum_precursors s = []) as Hnone.
  { unfold spectrum_precursors.
    destruct Hempty as [-> | (pl & -> & Hpl)]; [done|]. simpl.
    by destruct Hpl as [-> | ->]. }
  assert (∀ st, process_spectrum s st = Ok (tt, st)) as Hskip.
  { intros st. unfold process_spectrum. rewrite Hlevel.
    fold (spectrum_precursors s). by rewrite Hnone. }
  split; [exact Hskip|]. split; [|split].
  - unfold extract_precursor_data, extract_body, ext_bind. simpl.
    unfold ext_bind. by rewrite Hskip.
  - intros p st Hp. unfold process_precursor.
    destruct Hp as [-> | (sl & -> & Hsl)]; [done|]. simpl.
    by destruct Hsl as [-> | ->].
  - intros doc e. rewrite extract_precursor_data_spec.
    unfold document_observations.
    destruct (traverse observe _) as [obs|e'] eqn:Ht; simpl; [done|].
    intros [= <-]. by apply traverse_observe_Raise in Ht.
Qed.

Lemma C5_empty_precursor_list_witness :
  (∀ st, process_spectrum ms2_no_precursors st = Ok (tt, st)) ∧
  (∀ st, process_spectrum ms2_no_precursor_list st = Ok (tt, st)) ∧
  extract_precursor_data [ms2_no_precursor_list] = Ok ([], [], []).
Proof.
  split; [|split].
  - apply (C5_empty_precursor_list ms2_no_precursors); [reflexivity|].
    right. eexists. split; [reflexivity|]. right. reflexivity.
  - apply (C5_empty_precursor_list ms2_no_precursor_list); [reflexivity|].
    left. reflexivity.
  - apply (C5_empty_precursor_list ms2_no_precursor_list); [reflexivity|].
    left. reflexivity.
Defined.

(** C10. The three lists the extractor returns have one length, and at
    every index [i] their elements come from one selected ion of an MS2
    spectrum of the document: its m/z, its charge, and the neutral mass
    derived from the two. *)
Theorem C10_lists_aligned doc mzs chs nms :
  extract_precursor_data doc = Ok (mzs, chs, nms) →
  length mzs = length chs ∧ length chs = length nms ∧
  ∃ ions : list SelectedIon,
    ions = filter (λ ion, is_Some (complete ion)) (document_ions doc) ∧
    length ions = length mzs ∧
    ∀ i ion, ions !! i = Some ion →
      ion ∈ document_ions doc ∧
      ∃ mz charge nm,
        selected_ion_mz ion = Some mz ∧ charge_state ion = Some charge ∧
        mzs !! i = Some mz ∧ chs !! i = Some charge ∧ nms !! i = Some nm ∧
        derive_neutral_mass mz charge = Ok nm.
Proof.
  intros (obs & Hobs & -> & -> & ->)%extract_Ok_observations.
  rewrite !length_fmap. do 2 (split; [done|]).
  eexists. split; [done|].
  unfold document_observations in Hobs.
  revert obs Hobs.
  induction (document_ions doc) as [|ion0 ions IH]; intros obs Hobs.
  { simpl in Hobs. injection Hobs as <-. split; [done|]. by intros i ion. }
  rewrite filter_cons.
  change (omap complete (ion0 :: ions))
    with (match complete ion0 with
          | Some mc => mc :: omap complete ions
          | None => omap complete ions
          end) in Hobs.
  destruct (decide _) as [Hsome|Hnone].
  - destruct Hsome as [[mz c] Hc]. rewrite Hc in Hobs. simpl in Hobs.
    destruct (observe (mz, c)) as [o|] eqn:Ho; simpl in Hobs; [|done].
    destruct (traverse observe (omap complete ions)) as [os|] eqn:Hos;
      simpl in Hobs; [|done].
    injection Hobs as <-.
    destruct (IH os eq_refl) as [Hlen Hi].
    split; [simpl; by rewrite Hlen|].
    intros [|i] ion; simpl.
    + intros [= <-]. split; [by left|].
      exists mz, c, (obs_neutral_mass o). unfold complete in Hc.
      destruct (selected_ion_mz ion0), (charge_state ion0); try done.
      injection Hc as -> ->.
      apply observe_Ok in Ho as (cf & Hcf & ->). simpl in *.
      repeat split; try done.
      unfold derive_neutral_mass. by rewrite Hcf.
    + intros Hion. destruct (Hi i ion Hion) as [Hin Hrest].
      split; [by right | done].
  - destruct (complete ion0) as [mc|] eqn:Hc.
    { exfalso. apply Hnone. by eexists. }
    destruct (IH obs Hobs) as [Hlen Hi]. split; [done|].
    intros i ion Hion. destruct (Hi i ion Hion) as [Hin Hrest].
    split; [by right | done].
Qed.

Lemma C10_lists_aligned_witness :
  ∃ mzs chs nms,
    extract_precursor_data example_doc = Ok (mzs, chs, nms) ∧
    length mzs = length chs ∧ length chs = length nms.
Proof.
  exists [500.25; 623.5; 700.125]%float, [2; 3; 0],
         [998.48544706637597; 1867.4781705995640; 0]%float.
  assert (extract_precursor_data example_doc
          = Ok ([500.25; 623.5; 700.125]%float, [2; 3; 0],
                [998.48544706637597; 1867.4781705995640; 0]%float)) as H
    by (vm_compute; reflexivity).
  split; [exact H|].
  destruct (C10_lists_aligned _ _ _ _ H) as (H1 & H2 & _).
  split; [exact H1 | exact H2].
Defined.

(** ** Positions of the walk *)

Lemma elem_of_concat_imap {A B} (g : nat → A → list B) (l : list A) (y : B) :
  y ∈ mjoin (imap g l) ↔ ∃ i x, l !! i = Some x ∧ y ∈ g i x.
Proof.
  rewrite list_elem_of_join. split.
  - intros (ys & Hy & Hys). apply elem_of_lookup_imap in Hys as (i & x & -> & Hx).
    eauto.
  - intros (i & x & Hx & Hy). exists (g i x). split; [done|].
    by apply elem_of_lookup_imap_2.
Qed.

Lemma fmap_concat_imap {A B C} (F : B → C) (h : A → list C) (l : list A) :
  ∀ g : nat → A → list B,
    (∀ i x, l !! i = Some x → F <$> g i x = h x) →
    F <$> mjoin (imap g l) = flat_map h l.
Proof.
  induction l as [|x l IH]; intros g Hg; [done|].
  rewrite imap_cons. simpl. rewrite fmap_app. f_equal.
  - by apply (Hg 0%nat).
  - apply IH. intros i y Hy. by apply (Hg (S i)).
Qed.

(** Blocks [g 0 x0, g 1 x1, ...] whose elements carry the block number as
    key are sorted as a whole when each block is and the relation follows
    the key. *)
Lemma StronglySorted_concat_imap {A B} (R : relation B) (key : B → nat)
    (inv : B → Prop) (l : list A) :
  (∀ p q, inv p → inv q → (key p < key q)%nat → R p q) →
  ∀ (g : nat → A → list B) (n : nat),
    (∀ i x p, l !! i = Some x → p ∈ g i x → inv p ∧ key p = (n + i)%nat) →
    (∀ i x, l !! i = Some x → StronglySorted R (g i x)) →
    StronglySorted R (mjoin (imap g l)).
Proof.
  intros HR. induction l as [|x l IH]; intros g n Hkey Hsorted.
  { constructor. }
  rewrite imap_cons. simpl. apply StronglySorted_app. split; [|split].
  - intros p q Hp Hq.
    apply elem_of_concat_imap in Hq as (i & y & Hy & Hq).
    destruct (Hkey 0%nat x p eq_refl Hp) as [Hip Hkp].
    destruct (Hkey (S i) y q Hy Hq) as [Hiq Hkq].
    apply HR; [done..|lia].
  - by apply (Hsorted 0%nat).
  - apply (IH _ (S n)).
    + intros i y p Hy Hp. destruct (Hkey (S i) y p Hy Hp). split; [done|lia].
    + intros i y Hy. by apply (Hsorted (S i)).
Qed.

Lemma lookup_fmap_seq {A} (l : list A) :
  (λ k, l !! k) <$> seq 0 (length l) = Some <$> l.
Proof.
  apply list_eq. intros i. rewrite !list_lookup_fmap.
  destruct (decide (i < length l)%nat) as [Hi|Hi].
  - rewrite lookup_seq_lt by done. simpl.
    destruct (lookup_lt_is_Some_2 l i Hi) as [x ->]. done.
  - rewrite lookup_seq_ge by lia. by rewrite lookup_ge_None_2 by lia.
Qed.

Lemma ion_at_walk_positions doc :
  ion_at doc <$> walk_positions doc = Some <$> document_ions doc.
Proof.
  unfold walk_positions, document_ions.
  rewrite (fmap_concat_imap _ (λ s, Some <$> spectrum_ions s)).
  { induction doc as [|s doc IH]; [done|]. simpl. by rewrite fmap_app, IH. }
  intros i s Hs. unfold spectrum_positions, spectrum_ions.
  destruct (is_ms2 s) eqn:Hms2; [|done].
  rewrite (fmap_concat_imap _ (λ pr, Some <$> precursor_ions pr)).
  { induction (spectrum_precursors s) as [|pr prs IH]; [done|].
    simpl. by rewrite fmap_app, IH. }
  intros j pr Hpr. unfold precursor_positions.
  rewrite <- list_fmap_compose, <- lookup_fmap_seq.
  apply list_fmap_ext. intros _ k _. unfold ion_at. simpl.
  rewrite Hs. simpl. rewrite Hms2, Hpr. done.
Qed.

Lemma elem_of_walk_positions doc p :
  p ∈ walk_positions doc ↔ is_Some (ion_at doc p).
Proof.
  unfold walk_positions. rewrite elem_of_concat_imap. split.
  - intros (i & s & Hs & Hp). unfold spectrum_positions in Hp.
    destruct (is_ms2 s) eqn:Hms2; [|by apply elem_of_nil in Hp].
    apply elem_of_concat_imap in Hp as (j & pr & Hpr & Hp).
    apply list_elem_of_fmap in Hp as (k & -> & Hk).
    apply elem_of_seq in Hk. unfold ion_at. simpl.
    rewrite Hs. simpl. rewrite Hms2, Hpr. simpl.
    apply lookup_lt_is_Some_2. lia.
  - destruct p as [[i j] k]. unfold ion_at. simpl.
    destruct (doc !! i) as [s|] eqn:Hs; simpl; [|by intros [? ?]].
    destruct (is_ms2 s) eqn:Hms2; simpl; [|by intros [? ?]].
    destruct (spectrum_precursors s !! j) as [pr|] eqn:Hpr; simpl;
      [|by intros [? ?]].
    intros Hk%lookup_lt_is_Some.
    exists i, s. split; [done|]. unfold spectrum_positions. rewrite Hms2.
    apply elem_of_concat_imap. exists j, pr. split; [done|].
    apply list_elem_of_fmap. exists k. split; [done|].
    apply elem_of_seq. lia.
Qed.

Lemma walk_positions_sorted doc :
  StronglySorted position_lt (walk_positions doc).
Proof.
  apply (StronglySorted_concat_imap _ (λ p, p.1.1) (λ _, True) _) with (n := 0%nat).
  - intros p q _ _ Hlt. by left.
  - intros i s p _ Hp. split; [done|]. unfold spectrum_positions in Hp.
    destruct (is_ms2 s); [|by apply elem_of_nil in Hp].
    apply elem_of_concat_imap in Hp as (j & pr & _ & Hp).
    by apply list_elem_of_fmap in Hp as (k & -> & _).
  - intros i s _. unfold spectrum_positions.
    destruct (is_ms2 s); [|constructor].
    apply (StronglySorted_concat_imap _ (λ p, p.1.2) (λ p, p.1.1 = i) _)
      with (n := 0%nat).
    + intros p q Hp Hq Hlt. right. split; [congruence|]. by left.
    + intros j pr p _ Hp.
      by apply list_elem_of_fmap in Hp as (k & -> & _).
    + intros j pr _. unfold precursor_positions.
      generalize 0%nat at 1. induction (length (precursor_ions pr)) as [|n IH];
        intros k0; simpl; constructor.
      * apply IH.
      * apply Forall_forall. intros q Hq.
        apply list_elem_of_fmap in Hq as (k & -> & Hk).
        apply elem_of_seq in Hk. right. split; [done|]. right.
        split; [done|]. simpl. lia.
Qed.

Lemma omap_filter_lookup {A B} (f : A → option B) (l : list A) :
  length (filter (λ x, is_Some (f x)) l) = length (omap f l) ∧
  ∀ i x, filter (λ x, is_Some (f x)) l !! i = Some x →
         ∃ y, f x = Some y ∧ omap f l !! i = Some y.
Proof.
  induction l as [|x0 l [IHlen IH]]; [split; [done|by intros i x]|].
  rewrite filter_cons.
  change (omap f (x0 :: l))
    with (match f x0 with Some y => y :: omap f l | None => omap f l end).
  destruct (decide _) as [[y Hy]|Hnone].
  - rewrite Hy. simpl. split; [by rewrite IHlen|].
    intros [|i] x; simpl; [intros [= <-]; eauto | apply IH].
  - destruct (f x0) as [y|] eqn:Hy; [exfalso; apply Hnone; by eexists|].
    done.
Qed.

Lemma StronglySorted_filter' {A} (R : relation A) (P : A → Prop)
    `{∀ x, Decision (P x)} (l : list A) :
  StronglySorted R l → StronglySorted R (filter P l).
Proof.
  induction 1 as [|x l Hl IH Hx]; [constructor|].
  rewrite filter_cons. destruct (decide (P x)); [|done].
  constructor; [done|].
  apply Forall_forall. intros y [_ Hy]%list_elem_of_filter.
  rewrite Forall_forall in Hx. by apply Hx.
Qed.

Lemma qualifying_is_Some doc p :
  qualifying doc p = true ↔ is_Some (ion_at doc p ≫= complete).
Proof.
  unfold qualifying. destruct (ion_at doc p ≫= complete).
  - split; [by eexists | done].
  - split; [done | by intros [? ?]].
Qed.

Lemma qualifying_positions_alt doc :
  qualifying_positions doc
  = filter (λ p, is_Some (ion_at doc p ≫= complete)) (walk_positions doc).
Proof.
  unfold qualifying_positions. apply list_filter_iff.
  intros p. apply qualifying_is_Some.
Qed.

Lemma omap_walk_positions doc :
  omap (λ p, ion_at doc p ≫= complete) (walk_positions doc)
  = omap complete (document_ions doc).
Proof.
  pose proof (ion_at_walk_positions doc) as H.
  revert H. generalize (document_ions doc). generalize (walk_positions doc).
  induction l as [|p ps IH]; intros [|ion ions]; try done.
  rewrite !fmap_cons. intros [= Hp Hps].
  change (omap (λ p, ion_at doc p ≫= complete) (p :: ps))
    with (match ion_at doc p ≫= complete with
          | Some y => y :: omap (λ p, ion_at doc p ≫= complete) ps
          | None => omap (λ p, ion_at doc p ≫= complete) ps
          end).
  change (omap complete (ion :: ions))
    with (match complete ion with
          | Some y => y :: omap complete ions
          | None => omap complete ions
          end).
  rewrite Hp, (IH ions Hps). done.
Qed.

(** The extractor is a homomorphism from documents to columns. *)
Lemma extract_cons s doc :
  extract_precursor_data (s :: doc) =
  (b ← extract_precursor_data [s];
   r ← extract_precursor_data doc;
   mret (join_columns [b; r])).
Proof.
  rewrite !extract_precursor_data_spec. unfold document_observations.
  replace (s :: doc) with ([s] ++ doc) by done.
  rewrite extract_app, omap_app, traverse_app.
  destruct (traverse observe (omap complete (document_ions [s]))) as [o1|];
    simpl; [|done].
  destruct (traverse observe (omap complete (document_ions doc))) as [o2|];
    simpl; [|done].
  unfold columns, join_columns. simpl. by rewrite !fmap_app, !app_nil_r.
Qed.

Lemma extract_blocks doc :
  Forall (λ s, is_Ok (extract_precursor_data [s])) doc →
  extract_precursor_data doc = Ok (join_columns (block <$> doc)).
Proof.
  induction 1 as [|s doc [b Hb] _ IH]; [done|].
  rewrite extract_cons, Hb, IH. rewrite fmap_cons. unfold block at 2.
  rewrite Hb. unfold join_columns. simpl. by rewrite !app_nil_r.
Qed.

Lemma extract_Ok_Forall doc :
  is_Ok (extract_precursor_data doc) →
  Forall (λ s, is_Ok (extract_precursor_data [s])) doc.
Proof.
  induction doc as [|s doc IH]; [constructor|].
  rewrite extract_cons. unfold is_Ok at 1. intros [out Hout].
  destruct (extract_precursor_data [s]) as [b|] eqn:Hb; simpl in Hout; [|done].
  destruct (extract_precursor_data doc) as [r|]; simpl in Hout; [|done].
  constructor; [rewrite Hb; by eexists | apply IH; by eexists].
Qed.

(** C4. When the extractor returns, entry [i] of its lists is taken from
    the [i]-th position, in lexicographic order of (scan, precursor, ion),
    among the positions of the MS2 spectra that hold an ion with both
    fields; and the output is the concatenation, in document order, of what
    each spectrum contributes on its own, so a permuted document yields the
    per-spectrum contributions in the permuted order. *)
Theorem C4_document_order doc mzs chs nms :
  extract_precursor_data doc = Ok (mzs, chs, nms) →
  let ps := qualifying_positions doc in
  StronglySorted position_lt ps ∧
  (∀ p, p ∈ ps ↔ ∃ ion mc, ion_at doc p = Some ion ∧ complete ion = Some mc) ∧
  length ps = length mzs ∧
  (∀ i p, ps !! i = Some p →
     ∃ ion mz charge nm,
       ion_at doc p = Some ion ∧
       selected_ion_mz ion = Some mz ∧ charge_state ion = Some charge ∧
       mzs !! i = Some mz ∧ chs !! i = Some charge ∧ nms !! i = Some nm ∧
       derive_neutral_mass mz charge = Ok nm) ∧
  (∀ s, s ∈ doc → extract_precursor_data [s] = Ok (block s)) ∧
  (∀ doc', doc' ≡ₚ doc →
     extract_precursor_data doc' = Ok (join_columns (block <$> doc'))).
Proof.
  intros Hok ps.
  assert (Forall (λ s, is_Ok (extract_precursor_data [s])) doc) as Hall.
  { apply extract_Ok_Forall. by eexists. }
  apply extract_Ok_observations in Hok as (obs & Hobs & -> & -> & ->).
  unfold document_observations in Hobs.
  subst ps. rewrite qualifying_positions_alt.
  destruct (omap_filter_lookup (λ p, ion_at doc p ≫= complete)
              (walk_positions doc)) as [Hlen Hlookup].
  rewrite omap_walk_positions in Hlen, Hlookup.
  split; [|split; [|split; [|split; [|split]]]].
  - apply StronglySorted_filter', walk_positions_sorted.
  - intros p. rewrite list_elem_of_filter, elem_of_walk_positions. split.
    + intros [[mc Hmc] [ion Hion]]. rewrite Hion in Hmc. simpl in Hmc. eauto.
    + intros (ion & mc & Hion & Hmc). rewrite Hion. simpl.
      split; by eexists.
  - rewrite length_fmap, Hlen. symmetry. by eapply traverse_Ok_length.
  - intros i p Hp. destruct (Hlookup i p Hp) as ([mz c] & Hmc & Hi).
    destruct (ion_at doc p) as [ion|] eqn:Hion; simpl in Hmc; [|done].
    destruct (traverse_Ok_lookup _ _ _ _ _ Hobs Hi) as (o & Ho & Hobserve).
    apply observe_Ok in Hobserve as (cf & Hcf & ->). simpl in *.
    unfold complete in Hmc.
    destruct (selected_ion_mz ion) as [mz'|] eqn:Hmz; [|done].
    destruct (charge_state ion) as [c'|] eqn:Hc; [|done].
    injection Hmc as -> ->.
    exists ion, mz, c, (mz * cf - cf * PROTON_MASS)%float.
    rewrite !list_lookup_fmap, Ho. simpl.
    unfold derive_neutral_mass. rewrite Hcf. done.
  - intros s Hs. rewrite Forall_forall in Hall.
    destruct (Hall s Hs) as [b Hb]. unfold block. by rewrite Hb.
  - intros doc' Hperm. apply extract_blocks. by rewrite Hperm.
Qed.

Lemma C4_document_order_witness :
  qualifying_positions example_doc = [(1, 0, 0); (1, 1, 1); (4, 0, 0)]%nat ∧
  extract_precursor_data (reverse example_doc)
  = Ok ([700.125; 500.25; 623.5]%float, [0; 2; 3],
        [0; 998.48544706637597; 1867.4781705995640]%float).
Proof.
  assert (extract_precursor_data example_doc
          = Ok ([500.25; 623.5; 700.125]%float, [2; 3; 0],
                [998.48544706637597; 1867.4781705995640; 0]%float)) as H
    by (vm_compute; reflexivity).
  destruct (C4_document_order _ _ _ _ H) as (_ & _ & _ & _ & _ & Hperm).
  split; [vm_compute; reflexivity|].
  rewrite (Hperm (reverse example_doc)) by apply reverse_Permutation.
  vm_compute. reflexivity.
Defined.

(** ** The extractor on list objects *)

Section heap_simulation.

Variables (σ : store) (a b c : loc).
Hypothesis Hac : a ≠ c.

Lemma simulates_ret {A} (x : A) : simulates σ a b c (py_ret x) (ext_ret x).
Proof.
  intros st. exists st. split; [done|]. by intros ? ? [= _ ->].
Qed.

Lemma simulates_lift {A} (r : result A) :
  simulates σ a b c (py_lift r) (ext_lift r).
Proof.
  intros st. exists st. unfold py_lift, ext_lift.
  destruct r; simpl; split; try done. by intros ? ? [= _ ->].
Qed.

Lemma simulates_bind {A B} (mh : Py A) (m : Ext A)
    (kh : A → Py B) (k : A → Ext B) :
  simulates σ a b c mh m →
  (∀ x, simulates σ a b c (kh x) (k x)) →
  simulates σ a b c (py_bind mh kh) (ext_bind m k).
Proof.
  intros Hm Hk st. destruct (Hm st) as (st1 & Hrun & Hst).
  unfold py_bind, ext_bind. rewrite Hrun.
  destruct (m st) as [[x st2]|e]; simpl.
  - rewrite (Hst x st2 eq_refl). apply Hk.
  - exists st1. by split.
Qed.

Lemma simulates_for {A} (xs : list A) (bodyh : A → Py unit)
    (body : A → Ext unit) :
  (∀ x, simulates σ a b c (bodyh x) (body x)) →
  simulates σ a b c (py_for xs bodyh) (for_each xs body).
Proof.
  intros Hbody. induction xs as [|x xs IH]; simpl.
  - apply simulates_ret.
  - apply simulates_bind; [apply Hbody | intros _; apply IH].
Qed.

Lemma simulates_append_precursor_mz x :
  simulates σ a b c (float_list_append a x) (append_precursor_mz x).
Proof.
  intros st. eexists. split; [|by intros ? ? [= _ <-]].
  unfold float_list_append, with_acc. simpl. do 2 f_equal.
  by rewrite alter_insert_ne, alter_insert_eq.
Qed.

Lemma simulates_append_charge_states x :
  simulates σ a b c (int_list_append b x) (append_charge_states x).
Proof.
  intros st. eexists. split; [|by intros ? ? [= _ <-]].
  unfold int_list_append, with_acc. simpl. do 2 f_equal.
  by rewrite alter_insert_eq.
Qed.

Lemma simulates_append_neutral_masses x :
  simulates σ a b c (float_list_append c x) (append_neutral_masses x).
Proof.
  intros st. eexists. split; [|by intros ? ? [= _ <-]].
  unfold float_list_append, with_acc. simpl. do 2 f_equal.
  by rewrite alter_insert_eq.
Qed.

Lemma simulates_process_ion ion :
  simulates σ a b c (process_ion_heap a b c ion) (process_ion ion).
Proof.
  unfold process_ion_heap, process_ion.
  destruct (selected_ion_mz ion) as [mz|], (charge_state ion) as [charge|];
    try apply simulates_ret.
  apply simulates_bind; [apply simulates_append_precursor_mz|intros _].
  apply simulates_bind; [apply simulates_append_charge_states|intros _].
  apply simulates_bind; [apply simulates_lift|intros x].
  apply simulates_bind; [apply simulates_lift|intros y].
  apply simulates_append_neutral_masses.
Qed.

Lemma simulates_process_precursor p :
  simulates σ a b c (process_precursor_heap a b c p) (process_precursor p).
Proof. apply simulates_for, simulates_process_ion. Qed.

Lemma simulates_process_spectrum s :
  simulates σ a b c (process_spectrum_heap a b c s) (process_spectrum s).
Proof.
  unfold process_spectrum_heap, process_spectrum.
  destruct (is_ms2 s); [|apply simulates_ret].
  apply simulates_for, simulates_process_precursor.
Qed.

End heap_simulation.

Lemma with_acc_contents σ a b c st :
  a ≠ c →
  contents (with_acc σ a b c st) (a, b, c)
  = Some (precursor_mz st, charge_states st, neutral_masses st).
Proof.
  intros Hac. unfold contents, with_acc. simpl.
  rewrite (lookup_insert_ne _ c a) by (by intros ->).
  by rewrite !lookup_insert_eq.
Qed.

Lemma with_acc_preserved σ a b c st :
  a ∉ allocated σ → b ∉ allocated σ → c ∉ allocated σ →
  preserved σ (with_acc σ a b c st).
Proof.
  intros Ha Hb Hc l Hl. unfold with_acc. simpl.
  rewrite !lookup_insert_ne by (by intros ->). done.
Qed.

Lemma preserved_allocated σ σ' : preserved σ σ' → allocated σ ⊆ allocated σ'.
Proof.
  intros Hpres l Hl. destruct (Hpres l Hl) as [Hf Hi].
  unfold allocated in *. rewrite elem_of_union, !elem_of_dom in *.
  by rewrite Hf, Hi.
Qed.

Lemma preserved_contents σ σ' refs lists :
  preserved σ σ' → contents σ refs = Some lists → contents σ' refs = Some lists.
Proof.
  destruct refs as [[a b] c]. intros Hpres. unfold contents.
  destruct (float_lists σ !! a) as [mzs|] eqn:Ha; simpl; [|done].
  destruct (int_lists σ !! b) as [chs|] eqn:Hb; simpl; [|done].
  destruct (float_lists σ !! c) as [nms|] eqn:Hc; simpl; [|done].
  intros <-.
  assert (a ∈ allocated σ ∧ b ∈ allocated σ ∧ c ∈ allocated σ) as (Ha' & Hb' & Hc').
  { unfold allocated. rewrite !elem_of_union, !elem_of_dom.
    rewrite Ha, Hb, Hc. split; [left | split; [right | left]]; by eexists. }
  destruct (Hpres a Ha') as [-> _], (Hpres b Hb') as [_ ->],
    (Hpres c Hc') as [-> _].
  by rewrite Ha, Hb, Hc.
Qed.

(** A call from any store: the three references are the next three free
    places, and the store at the end is the store at entry with the three
    accumulators added. *)
Lemma extract_heap_run doc σ :
  ∃ a b c st,
    (a ∉ allocated σ) ∧ (b ∉ allocated σ) ∧ (c ∉ allocated σ) ∧
    a ≠ b ∧ a ≠ c ∧ b ≠ c ∧
    extract_precursor_data_heap doc σ
    = ((λ _, (a, b, c)) <$> extract_precursor_data doc, with_acc σ a b c st) ∧
    ∀ lists, extract_precursor_data doc = Ok lists →
             lists = (precursor_mz st, charge_states st, neutral_masses st).
Proof.
  set (a := fresh (allocated σ)).
  set (σ1 := {| float_lists := <[a := []]> (float_lists σ);
                int_lists := int_lists σ |}).
  set (b := fresh (allocated σ1)).
  set (σ2 := {| float_lists := float_lists σ1;
                int_lists := <[b := []]> (int_lists σ1) |}).
  set (c := fresh (allocated σ2)).
  pose proof (is_fresh (allocated σ)) as Ha. fold a in Ha.
  pose proof (is_fresh (allocated σ1)) as Hb. fold b in Hb.
  pose proof (is_fresh (allocated σ2)) as Hc. fold c in Hc.
  assert (allocated σ1 = {[a]} ∪ allocated σ) as E1.
  { unfold allocated, σ1. simpl. by rewrite dom_insert_L, (assoc_L (∪)). }
  assert (allocated σ2 = {[b]} ∪ allocated σ1) as E2.
  { unfold allocated.
    change (int_lists σ2) with (<[b := []]> (int_lists σ1)).
    change (float_lists σ2) with (float_lists σ1).
    by rewrite dom_insert_L, (assoc_L (∪)), (comm_L (∪) _ {[b]}),
         (assoc_L (∪)). }
  rewrite E2, E1 in Hc. rewrite E1 in Hb.
  apply not_elem_of_union in Hb as [Hba%not_elem_of_singleton Hb].
  apply not_elem_of_union in Hc as [Hcb%not_elem_of_singleton Hc].
  apply not_elem_of_union in Hc as [Hca%not_elem_of_singleton Hc].
  assert (a ≠ c) as Hac by (by apply not_eq_sym).
  destruct (simulates_for σ a b c doc _ _
              (simulates_process_spectrum σ a b c Hac) empty_acc)
    as (st & Hrun & Hst).
  exists a, b, c, st.
  split; [done|]. split; [done|]. split; [done|].
  split; [by apply not_eq_sym|]. split; [done|].
  split; [by apply not_eq_sym|].
  change (extract_precursor_data_heap doc σ)
    with (match py_for doc (process_spectrum_heap a b c)
                  (with_acc σ a b c empty_acc) with
          | (Ok _, σ') => (Ok (a, b, c), σ')
          | (Raise e, σ') => (Raise e, σ')
          end).
  rewrite Hrun.
  unfold extract_precursor_data, extract_body, ext_bind.
  destruct (for_each doc process_spectrum empty_acc) as [[[] st']|e]; simpl.
  - rewrite (Hst tt st' eq_refl). split; [done|]. by intros ? [= <-].
  - by split.
Qed.

Lemma extract_heap_returned doc σ :
  returned (extract_precursor_data_heap doc σ)
  = (Some <$> extract_precursor_data doc).
Proof.
  destruct (extract_heap_run doc σ)
    as (a & b & c & st & _ & _ & _ & _ & Hac & _ & -> & Hst).
  unfold returned.
  destruct (extract_precursor_data doc) as [lists|e]; [|done].
  change (Ok (contents (with_acc σ a b c st) (a, b, c)) = Ok (Some lists)).
  by rewrite with_acc_contents, (Hst lists eq_refl).
Qed.

Lemma with_acc_allocated σ a b c st :
  names (a, b, c) ⊆ allocated (with_acc σ a b c st).
Proof.
  intros l. unfold names, allocated, with_acc. simpl.
  rewrite !dom_insert_L, !elem_of_union, !elem_of_singleton.
  intros [[-> | ->] | ->]; auto.
Qed.

Lemma summary_stats_heap_contents np_mean a b c σ mzs chs nms :
  contents σ (a, b, c) = Some (mzs, chs, nms) →
  get_summary_stats_heap np_mean a b c σ
  = (get_summary_stats np_mean mzs chs nms, σ).
Proof.
  unfold contents, get_summary_stats_heap, py_bind, float_list_read,
    int_list_read, py_lift.
  destruct (float_lists σ !! a); simpl; [|done].
  destruct (int_lists σ !! b); simpl; [|done].
  destruct (float_lists σ !! c); simpl; [|done].
  by intros [= -> -> ->].
Qed.

(** C9. The extractor and the aggregator keep no state between calls.
    The lists of the whole process are held in a store, and a call of
    [extract_precursor_data] may start from any store, whatever earlier
    calls left in it.  What the caller gets, the exception or the contents
    of the three returned lists, is the same from every store and is the
    result of the extractor as a function of the document.  The call
    changes no list that existed when it started, also when it raises, and
    the three lists it returns are new objects, distinct from each other.
    Hence a second call, on any document, returns what it returns from the
    empty store, returns lists that are not those of the first call, leaves
    the lists of the first call as they were, and the statistics of the
    first result are the same after it as before.  The aggregator changes
    no list, and its result is a function of the contents of its three
    arguments: equal contents, at whatever places of whatever stores, give
    equal statistics. *)
Theorem C9_no_cross_call_state (np_mean : list float → float)
    (doc doc' : Document) (σ : store) :
  let run := extract_precursor_data_heap doc σ in
  let run' := extract_precursor_data_heap doc' (run.2) in
  returned run = (Some <$> extract_precursor_data doc) ∧
  (∀ σ', returned (extract_precursor_data_heap doc σ') = returned run) ∧
  preserved σ (run.2) ∧
  (∀ a b c, run.1 = Ok (a, b, c) →
     (a ∉ allocated σ) ∧ (b ∉ allocated σ) ∧ (c ∉ allocated σ) ∧
     a ≠ b ∧ a ≠ c ∧ b ≠ c) ∧
  returned run' = returned (extract_precursor_data_heap doc' empty_store) ∧
  preserved (run.2) (run'.2) ∧
  (∀ a b c, run.1 = Ok (a, b, c) →
     (∀ refs', run'.1 = Ok refs' → names (a, b, c) ## names refs') ∧
     contents (run'.2) (a, b, c) = contents (run.2) (a, b, c) ∧
     (get_summary_stats_heap np_mean a b c (run'.2)).1
     = (get_summary_stats_heap np_mean a b c (run.2)).1) ∧
  (∀ a b c τ mzs chs nms,
     contents τ (a, b, c) = Some (mzs, chs, nms) →
     get_summary_stats_heap np_mean a b c τ
     = (get_summary_stats np_mean mzs chs nms, τ)) ∧
  (∀ a1 b1 c1 τ1 a2 b2 c2 τ2,
     is_Some (contents τ1 (a1, b1, c1)) →
     contents τ1 (a1, b1, c1) = contents τ2 (a2, b2, c2) →
     (get_summary_stats_heap np_mean a1 b1 c1 τ1).1
     = (get_summary_stats_heap np_mean a2 b2 c2 τ2).1).
Proof.
  intros run run'.
  destruct (extract_heap_run doc σ)
    as (a & b & c & st & Ha & Hb & Hc & Hab & Hac & Hbc & Hrun & Hst).
  fold run in Hrun.
  assert (run.2 = with_acc σ a b c st) as Hσ1 by (by rewrite Hrun).
  destruct (extract_heap_run doc' (run.2))
    as (a' & b' & c' & st' & Ha' & Hb' & Hc' & Hab' & Hac' & Hbc' & Hrun' & Hst').
  fold run' in Hrun'.
  assert (run'.2 = with_acc (run.2) a' b' c' st') as Hσ2 by (by rewrite Hrun').
  assert (preserved (run.2) (run'.2)) as Hpres'
    by (rewrite Hσ2; by apply with_acc_preserved).
  split; [apply extract_heap_returned|].
  split; [intros σ'; unfold run; by rewrite !extract_heap_returned|].
  split; [rewrite Hσ1; by apply with_acc_preserved|].
  split.
  { intros a0 b0 c0. rewrite Hrun. simpl.
    destruct (extract_precursor_data doc); simpl; [|done].
    by intros [= <- <- <-]. }
  split; [unfold run'; by rewrite !extract_heap_returned|].
  split; [done|].
  split.
  { intros a0 b0 c0 Hrefs.
    assert ((a0, b0, c0) = (a, b, c)) as [= -> -> ->].
    { rewrite Hrun in Hrefs. simpl in Hrefs.
      destruct (extract_precursor_data doc); simpl in Hrefs; [|done].
      by injection Hrefs as <- <- <-. }
    assert (contents (run.2) (a, b, c)
            = Some (precursor_mz st, charge_states st, neutral_masses st))
      as Hcont by (rewrite Hσ1; by apply with_acc_contents).
    pose proof (preserved_contents _ _ _ _ Hpres' Hcont) as Hcont'.
    split; [|split].
    - intros refs' Hrefs'.
      assert (refs' = (a', b', c')) as ->.
      { rewrite Hrun' in Hrefs'. simpl in Hrefs'.
        destruct (extract_precursor_data doc'); simpl in Hrefs'; [|done].
        by injection Hrefs' as <-. }
      intros l Hl Hl'.
      assert (l ∈ allocated (run.2)) as Hin
        by (rewrite Hσ1; by apply with_acc_allocated).
      unfold names in Hl'.
      rewrite !elem_of_union, !elem_of_singleton in Hl'.
      destruct Hl' as [[-> | ->] | ->]; done.
    - by rewrite Hcont, Hcont'.
    - by rewrite (summary_stats_heap_contents _ _ _ _ _ _ _ _ Hcont),
           (summary_stats_heap_contents _ _ _ _ _ _ _ _ Hcont'). }
  split; [apply summary_stats_heap_contents|].
  intros a1 b1 c1 τ1 a2 b2 c2 τ2 [[[mzs chs] nms] H1] H2.
  rewrite H1 in H2. symmetry in H2.
  by rewrite (summary_stats_heap_contents _ _ _ _ _ _ _ _ H1),
       (summary_stats_heap_contents _ _ _ _ _ _ _ _ H2).
Qed.

Lemma C9_no_cross_call_state_witness :
  first_run.1 = Ok (3, 4, 5)%positive ∧
  second_run.1 = Raise OverflowError ∧
  float_lists (second_run.2) !! 6%positive = Some [500.25%float] ∧
  preserved example_store (first_run.2) ∧
  contents (second_run.2) (3, 4, 5)%positive
  = contents (first_run.2) (3, 4, 5)%positive ∧
  (get_summary_stats_heap (λ _, 0%float) 3 4 5 (second_run.2)).1
  = (get_summary_stats_heap (λ _, 0%float) 3 4 5 (first_run.2)).1.
Proof.
  assert (first_run.1 = Ok (3, 4, 5)%positive) as Hrefs
    by (vm_compute; reflexivity).
  destruct (C9_no_cross_call_state (λ _, 0%float) example_doc huge_charge_doc
              example_store) as (_ & _ & Hpres & _ & _ & _ & Hlater & _).
  destruct (Hlater _ _ _ Hrefs) as (_ & Hcont & Hstats).
  split; [done|]. split; [vm_compute; reflexivity|].
  split; [vm_compute; reflexivity|]. by split.
Defined.

(** ** Comparisons of binary64 numbers *)

Lemma SFcompare_key x y :
  x ≠ S754_nan → y ≠ S754_nan →
  ∃ c, SFcompare x y = Some c ∧
       match c with
       | Lt => key_lt (sf_key x) (sf_key y)
       | Eq => sf_key x = sf_key y
       | Gt => key_lt (sf_key y) (sf_key x)
       end.
Proof.
  intros Hx Hy. unfold key_lt.
  destruct x as [sx|sx| |sx mx ex], y as [sy|sy| |sy my ey]; try done;
    try destruct sx; try destruct sy; simpl;
    try (eexists; split; [reflexivity|]; simpl; first [done | lia]).
  - fold (Pos.compare mx my).
    destruct (Z.compare_spec ex ey), (Pos.compare_spec mx my); subst;
      eexists; (split; [reflexivity|]); simpl; first [done | lia].
  - fold (Pos.compare mx my).
    destruct (Z.compare_spec ex ey), (Pos.compare_spec mx my); subst;
      eexists; (split; [reflexivity|]); simpl; first [done | lia].
Qed.

Lemma not_nan_Prim2SF x : not_nan x ↔ Prim2SF x ≠ S754_nan.
Proof.
  unfold not_nan, is_nan. rewrite FloatAxioms.eqb_spec. unfold SFeqb. split.
  - intros H Hnan. rewrite Hnan in H. done.
  - intros H. destruct (SFcompare_key _ _ H H) as (c & -> & Hc).
    destruct c; try done; unfold key_lt in Hc; lia.
Qed.

Lemma float_ltb_key x y :
  not_nan x → not_nan y →
  (x <? y)%float = true ↔ key_lt (float_key x) (float_key y).
Proof.
  intros Hx%not_nan_Prim2SF Hy%not_nan_Prim2SF.
  rewrite FloatAxioms.ltb_spec. unfold SFltb, float_key.
  destruct (SFcompare_key _ _ Hx Hy) as (c & -> & Hc).
  destruct (sf_key (Prim2SF x)) as [[a1 a2] a3].
  destruct (sf_key (Prim2SF y)) as [[b1 b2] b3].
  unfold key_lt, key_le in *. simpl in *.
  destruct c; [injection Hc as -> -> ->| |]; split; try done; lia.
Qed.

Lemma float_leb_key x y :
  not_nan x → not_nan y →
  (x <=? y)%float = true ↔ key_le (float_key x) (float_key y).
Proof.
  intros Hx%not_nan_Prim2SF Hy%not_nan_Prim2SF.
  rewrite FloatAxioms.leb_spec. unfold SFleb, float_key.
  destruct (SFcompare_key _ _ Hx Hy) as (c & -> & Hc).
  destruct (sf_key (Prim2SF x)) as [[a1 a2] a3].
  destruct (sf_key (Prim2SF y)) as [[b1 b2] b3].
  unfold key_lt, key_le in *. simpl in *.
  destruct c; [injection Hc as -> -> ->| |]; split; try done; lia.
Qed.

Lemma float_leb_nan_r x y : is_nan y = true → (x <=? y)%float = false.
Proof.
  unfold is_nan. rewrite FloatAxioms.eqb_spec, FloatAxioms.leb_spec. unfold SFeqb, SFleb.
  destruct (Prim2SF y) as [sy|sy| |sy my ey] eqn:Hy.
  - done.
  - by destruct sy.
  - intros _. by destruct (Prim2SF x) as [?|?| |? ? ?].
  - simpl. rewrite Z.compare_refl, Pos.compare_cont_refl. by destruct sy.
Qed.

(** [min] and [max] over numbers none of which is NaN. *)
Lemma py_min_bounds xs lo :
  Forall not_nan xs → py_min xs = Ok lo →
  lo ∈ xs ∧ ∀ x, x ∈ xs → (lo <=? x)%float = true.
Proof.
  destruct xs as [|x0 xs]; [done|]. simpl.
  intros [Hx0 Hxs]%Forall_cons [= <-].
  assert (∀ cur, not_nan cur →
            let m := foldl (λ cur item, if (item <? cur)%float then item else cur)
                       cur xs in
            not_nan m ∧ (m = cur ∨ m ∈ xs) ∧
            key_le (float_key m) (float_key cur) ∧
            ∀ x, x ∈ xs → key_le (float_key m) (float_key x)) as Hfold.
  { clear x0 Hx0. induction xs as [|x xs IH]; intros cur Hcur; simpl.
    - repeat split; [done|by left| |by intros x Hx%elem_of_nil].
      unfold key_le. lia.
    - apply Forall_cons in Hxs as [Hx Hxs].
      destruct (x <? cur)%float eqn:Hlt.
      + destruct (IH Hxs x Hx) as (Hm & Hin & Hle & Hall).
        apply float_ltb_key in Hlt; [|done..].
        repeat split; [done| | |].
        * right. destruct Hin as [->|Hin]; [by left|by right].
        * unfold key_le, key_lt in *. lia.
        * intros y [->|Hy]%elem_of_cons; [done|by apply Hall].
      + destruct (IH Hxs cur Hcur) as (Hm & Hin & Hle & Hall).
        assert (¬ key_lt (float_key x) (float_key cur)) as Hnlt.
        { intros H. apply float_ltb_key in H; [|done..]. congruence. }
        repeat split; [done| |done|].
        * destruct Hin as [->|Hin]; [by left|right; by right].
        * intros y [->|Hy]%elem_of_cons; [|by apply Hall].
          unfold key_le, key_lt in *. lia. }
  destruct (Hfold x0 Hx0) as (Hm & Hin & Hle & Hall). split.
  - destruct Hin as [->|Hin]; [by left|by right].
  - intros x [->|Hx]%elem_of_cons; apply float_leb_key; auto.
    rewrite Forall_forall in Hxs. by apply Hxs.
Qed.

Lemma py_max_bounds xs hi :
  Forall not_nan xs → py_max xs = Ok hi →
  hi ∈ xs ∧ ∀ x, x ∈ xs → (x <=? hi)%float = true.
Proof.
  destruct xs as [|x0 xs]; [done|]. simpl.
  intros [Hx0 Hxs]%Forall_cons [= <-].
  assert (∀ cur, not_nan cur →
            let m := foldl (λ cur item, if (cur <? item)%float then item else cur)
                       cur xs in
            not_nan m ∧ (m = cur ∨ m ∈ xs) ∧
            key_le (float_key cur) (float_key m) ∧
            ∀ x, x ∈ xs → key_le (float_key x) (float_key m)) as Hfold.
  { clear x0 Hx0. induction xs as [|x xs IH]; intros cur Hcur; simpl.
    - repeat split; [done|by left| |by intros x Hx%elem_of_nil].
      unfold key_le. lia.
    - apply Forall_cons in Hxs as [Hx Hxs].
      destruct (cur <? x)%float eqn:Hlt.
      + destruct (IH Hxs x Hx) as (Hm & Hin & Hle & Hall).
        apply float_ltb_key in Hlt; [|done..].
        repeat split; [done| | |].
        * right. destruct Hin as [->|Hin]; [by left|by right].
        * unfold key_le, key_lt in *. lia.
        * intros y [->|Hy]%elem_of_cons; [done|by apply Hall].
      + destruct (IH Hxs cur Hcur) as (Hm & Hin & Hle & Hall).
        assert (¬ key_lt (float_key cur) (float_key x)) as Hnlt.
        { intros H. apply float_ltb_key in H; [|done..]. congruence. }
        repeat split; [done| |done|].
        * destruct Hin as [->|Hin]; [by left|right; by right].
        * intros y [->|Hy]%elem_of_cons; [|by apply Hall].
          unfold key_le, key_lt in *. lia. }
  destruct (Hfold x0 Hx0) as (Hm & Hin & Hle & Hall). split.
  - destruct Hin as [->|Hin]; [by left|by right].
  - intros x [->|Hx]%elem_of_cons; apply float_leb_key; auto.
    rewrite Forall_forall in Hxs. by apply Hxs.
Qed.

(** ** Claims about the aggregator *)

Lemma sorted_spec (cs : list Z) :
  StronglySorted Z.lt (sorted (py_set cs)) ∧
  NoDup (sorted (py_set cs)) ∧
  ∀ c, c ∈ sorted (py_set cs) ↔ c ∈ cs.
Proof.
  unfold sorted, py_set.
  pose proof (merge_sort_Permutation Z.le (elements (list_to_set cs : gset Z)))
    as Hperm.
  assert (NoDup (merge_sort Z.le (elements (list_to_set cs : gset Z)))) as Hnd.
  { rewrite Hperm. apply NoDup_elements. }
  split; [|split; [done|]].
  - pose proof (StronglySorted_merge_sort Z.le
                  (elements (list_to_set cs : gset Z))) as Hs.
    revert Hs Hnd. generalize (merge_sort Z.le (elements (list_to_set cs : gset Z))).
    induction 1 as [|c l Hl IH Hc]; intros Hnd; constructor.
    + apply IH. by apply NoDup_cons in Hnd as [_ ?].
    + apply NoDup_cons in Hnd as [Hnotin _].
      rewrite Forall_forall in Hc |- *. intros y Hy.
      specialize (Hc y Hy). assert (c ≠ y) by (intros ->; done). lia.
  - intros c. rewrite Hperm, elem_of_elements, elem_of_list_to_set. done.
Qed.

(** C7 (as amended). For a non-empty collection of observations none of
    whose m/z values and neutral masses is NaN, the summary reports the
    number of observations; the m/z range it prints is built from the
    minimum and the maximum, which are observed values bounding every
    observed m/z, and likewise for the neutral masses; and the charge
    states it reports are strictly ascending, duplicate-free, and exactly
    the charges observed. *)
Theorem C7_summary_statistics (np_mean : list float → float)
    (obs : list Observation) :
  obs ≠ [] →
  Forall (λ o, not_nan (obs_mz o) ∧ not_nan (obs_neutral_mass o)) obs →
  ∃ stats mz_lo mz_hi nm_lo nm_hi,
    get_summary_stats np_mean (obs_mz <$> obs) (obs_charge <$> obs)
      (obs_neutral_mass <$> obs) = Ok stats ∧
    total_ms2_spectra stats = length obs ∧
    precursor_mz_range stats = format_2f mz_lo +:+ " - " +:+ format_2f mz_hi ∧
    neutral_mass_range stats
      = format_2f nm_lo +:+ " - " +:+ format_2f nm_hi +:+ " Da" ∧
    py_min (obs_mz <$> obs) = Ok mz_lo ∧ py_max (obs_mz <$> obs) = Ok mz_hi ∧
    py_min (obs_neutral_mass <$> obs) = Ok nm_lo ∧
    py_max (obs_neutral_mass <$> obs) = Ok nm_hi ∧
    (∀ o, o ∈ obs →
       (mz_lo <=? obs_mz o)%float = true ∧ (obs_mz o <=? mz_hi)%float = true ∧
       (nm_lo <=? obs_neutral_mass o)%float = true ∧
       (obs_neutral_mass o <=? nm_hi)%float = true) ∧
    StronglySorted Z.lt (charge_states_found stats) ∧
    NoDup (charge_states_found stats) ∧
    (∀ c, c ∈ charge_states_found stats ↔ ∃ o, o ∈ obs ∧ obs_charge o = c).
Proof.
  intros Hne Hnan.
  assert (Forall not_nan (obs_mz <$> obs)) as Hmz.
  { apply Forall_fmap. eapply Forall_impl; [done|]. by intros o [? ?]. }
  assert (Forall not_nan (obs_neutral_mass <$> obs)) as Hnm.
  { apply Forall_fmap. eapply Forall_impl; [done|]. by intros o [? ?]. }
  destruct (py_min (obs_mz <$> obs)) as [mz_lo|] eqn:Hmzlo;
    [|by destruct obs].
  destruct (py_max (obs_mz <$> obs)) as [mz_hi|] eqn:Hmzhi;
    [|by destruct obs].
  destruct (py_min (obs_neutral_mass <$> obs)) as [nm_lo|] eqn:Hnmlo;
    [|by destruct obs].
  destruct (py_max (obs_neutral_mass <$> obs)) as [nm_hi|] eqn:Hnmhi;
    [|by destruct obs].
  destruct (py_min_bounds _ _ Hmz Hmzlo) as [_ Hlo1].
  destruct (py_max_bounds _ _ Hmz Hmzhi) as [_ Hhi1].
  destruct (py_min_bounds _ _ Hnm Hnmlo) as [_ Hlo2].
  destruct (py_max_bounds _ _ Hnm Hnmhi) as [_ Hhi2].
  destruct (sorted_spec (obs_charge <$> obs)) as (Hsorted & Hnd & Hin).
  eexists _, mz_lo, mz_hi, nm_lo, nm_hi.
  unfold get_summary_stats. rewrite Hmzlo, Hmzhi, Hnmlo, Hnmhi. simpl.
  split; [reflexivity|]. simpl. rewrite length_fmap.
  do 7 (split; [done|]). split; [|split; [done|split; [done|]]].
  - intros o Ho. repeat split.
    + apply Hlo1. by apply list_elem_of_fmap_2.
    + apply Hhi1. by apply list_elem_of_fmap_2.
    + apply Hlo2. by apply list_elem_of_fmap_2.
    + apply Hhi2. by apply list_elem_of_fmap_2.
  - intros c. rewrite Hin, list_elem_of_fmap. split.
    + intros (o & -> & Ho). eauto.
    + intros (o & Ho & <-). eauto.
Qed.

Lemma C7_summary_statistics_witness :
  ∃ stats,
    get_summary_stats (λ _, 0%float) (obs_mz <$> example_observations)
      (obs_charge <$> example_observations)
      (obs_neutral_mass <$> example_observations) = Ok stats ∧
    total_ms2_spectra stats = 3%nat ∧
    precursor_mz_range stats = "500.25 - 700.12" ∧
    neutral_mass_range stats = "0.00 - 1867.48 Da" ∧
    charge_states_found stats = [0; 2; 3].
Proof.
  destruct (C7_summary_statistics (λ _, 0%float) example_observations)
    as (stats & mz_lo & mz_hi & nm_lo & nm_hi & Hstats & _).
  - discriminate.
  - repeat constructor.
  - exists stats. split; [exact Hstats|].
    vm_compute in Hstats. injection Hstats as <-. repeat split.
Defined.

(** The claim as stated fails on a collection the extractor itself
    produces from ions with positive m/z and positive charge: the second
    neutral mass is NaN and lies outside the reported range. *)
Lemma C7_counterexample :
  let nm := (2 * 1 - 1 * PROTON_MASS)%float in
  extract_precursor_data overflowing_doc
  = Ok ([2; 2]%float, [1; 2 ^ 1024 - 2 ^ 971], [nm; nan]) ∧
  py_min [nm; nan] = Ok nm ∧ py_max [nm; nan] = Ok nm ∧
  (neutral_mass_range <$>
     get_summary_stats (λ _, 0%float) [2; 2]%float [1; 2 ^ 1024 - 2 ^ 971]
       [nm; nan]) = Ok "0.99 - 0.99 Da" ∧
  nan ∈ [nm; nan] ∧
  (nm <=? nan)%float = false ∧ (nan <=? nm)%float = false.
Proof.
  intros nm. split; [vm_compute; reflexivity|].
  split; [vm_compute; reflexivity|]. split; [vm_compute; reflexivity|].
  split; [vm_compute; reflexivity|].
  split; [by right; left|]. split; vm_compute; reflexivity.
Qed.

(** ** Exact rounding of binary64 numbers

    What [SpecFloat] computes when the value to be rounded is itself a
    binary64 number: no bit is lost. *)

Lemma fexp_eq e : fexp prec emax e = Z.max (e - 53) (-1074).
Proof. reflexivity. Qed.

Lemma digits2_pos_log2 m : Z.pos (digits2_pos m) = Z.log2 (Z.pos m) + 1.
Proof.
  induction m as [m IH|m IH|]; simpl digits2_pos; [| |done].
  - rewrite Pos2Z.inj_succ, IH, Pos2Z.inj_xI, Z.log2_succ_double; lia.
  - rewrite Pos2Z.inj_succ, IH, Pos2Z.inj_xO, Z.log2_double; lia.
Qed.

Lemma digits2_pos_shift m m' n :
  0 ≤ n → Z.pos m' = Z.pos m * 2 ^ n →
  Z.pos (digits2_pos m') = Z.pos (digits2_pos m) + n.
Proof.
  intros Hn Hm. rewrite !digits2_pos_log2, Hm, Z.log2_mul_pow2; lia.
Qed.

Lemma digits2_pos_bound m d :
  0 ≤ d → Z.pos m < 2 ^ d → Z.pos (digits2_pos m) ≤ d.
Proof.
  intros Hd Hm. rewrite digits2_pos_log2.
  assert (Z.log2 (Z.pos m) < d); [|lia].
  apply Z.log2_lt_pow2; lia.
Qed.

Lemma iter_pos_nat {A} (f : A → A) p x :
  SpecFloat.iter_pos f p x = Nat.iter (Pos.to_nat p) f x.
Proof.
  revert x. induction p as [p IH|p IH|]; intros x; simpl SpecFloat.iter_pos.
  - rewrite !IH, Pos2Nat.inj_xI.
    replace (S (2 * Pos.to_nat p)) with (Pos.to_nat p + (Pos.to_nat p + 1))%nat
      by lia.
    rewrite !Nat.iter_add. done.
  - rewrite !IH, Pos2Nat.inj_xO.
    replace (2 * Pos.to_nat p)%nat with (Pos.to_nat p + Pos.to_nat p)%nat by lia.
    by rewrite Nat.iter_add.
  - done.
Qed.

Lemma shr_1_exact (k : nat) : ∀ m : positive,
  Nat.iter k shr_1
    {| shr_m := Z.pos m * 2 ^ Z.of_nat k; shr_r := false; shr_s := false |}
  = {| shr_m := Z.pos m; shr_r := false; shr_s := false |}.
Proof.
  induction k as [|k IH]; intros m.
  - simpl. by rewrite Z.mul_1_r.
  - replace (Z.pos m * 2 ^ Z.of_nat (S k)) with (Z.pos m~0 * 2 ^ Z.of_nat k).
    + simpl Nat.iter. by rewrite IH.
    + rewrite Nat2Z.inj_succ, Z.pow_succ_r by lia. lia.
Qed.

Lemma shr_exact m n e :
  0 ≤ n →
  shr {| shr_m := Z.pos m * 2 ^ n; shr_r := false; shr_s := false |} e n
  = ({| shr_m := Z.pos m; shr_r := false; shr_s := false |}, e + n).
Proof.
  intros Hn. unfold shr. destruct n as [|p|p]; [|clear Hn|lia].
  - by rewrite Z.mul_1_r, Z.add_0_r.
  - rewrite iter_pos_nat. f_equal.
    rewrite <- (positive_nat_Z p) at 1. apply shr_1_exact.
Qed.

Lemma shl_align_spec m e e' :
  e' ≤ e →
  ∃ m', shl_align m e e' = (m', e') ∧ Z.pos m' = Z.pos m * 2 ^ (e - e').
Proof.
  intros He. unfold shl_align.
  destruct (e' - e) as [|p|p] eqn:Hd; [| lia |].
  - assert (e' = e) as -> by lia. exists m. rewrite Z.sub_diag. split; [done|lia].
  - eexists. split; [done|].
    replace (e - e') with (Z.pos p) by lia.
    rewrite Pos2Nat.inj_iter. rewrite <- (positive_nat_Z p).
    generalize (Pos.to_nat p). clear. intros n.
    induction n as [|n IH]; [simpl; lia|].
    cbn [nat_rect]. rewrite Pos2Z.inj_xO, IH, Nat2Z.inj_succ, Z.pow_succ_r; lia.
Qed.

Lemma shl_align_id m e e' : e ≤ e' → shl_align m e e' = (m, e).
Proof.
  intros He. unfold shl_align. destruct (e' - e) as [|p|p] eqn:Hd; [done..|lia].
Qed.

Lemma same_value_digits M ez m' e' :
  same_value M ez m' e' →
  Z.pos (digits2_pos M) + ez = Z.pos (digits2_pos m') + e'.
Proof.
  intros [[He Hm]|[He Hm]].
  - rewrite (digits2_pos_shift M m' (ez - e')); lia.
  - rewrite (digits2_pos_shift m' M (e' - ez)); lia.
Qed.

Lemma binary_round_aux_exact s M ez m' e' :
  e' = fexp prec emax (Z.pos (digits2_pos M) + ez) →
  e' ≤ 971 → ez ≤ e' → Z.pos M = Z.pos m' * 2 ^ (e' - ez) →
  binary_round_aux prec emax s (Z.pos M) ez loc_Exact = S754_finite s m' e'.
Proof.
  intros He' Hmax Hle HM.
  pose proof (same_value_digits M ez m' e' (or_intror (conj Hle HM))) as Hd.
  unfold binary_round_aux, shr_fexp. simpl Zdigits2. rewrite <- He'.
  simpl shr_record_of_loc. rewrite HM, shr_exact by lia.
  replace (ez + (e' - ez)) with e' by lia. simpl shr_m. simpl loc_of_shr_record.
  simpl round_nearest_even. simpl Zdigits2. rewrite <- Hd, <- He', Z.sub_diag.
  simpl. change (emax - prec) with 971.
  destruct (Z.leb_spec e' 971); [done|lia].
Qed.

Lemma binary_round_exact s M ez m' e' :
  e' = fexp prec emax (Z.pos (digits2_pos M) + ez) →
  e' ≤ 971 → same_value M ez m' e' →
  binary_round prec emax s M ez = S754_finite s m' e'.
Proof.
  intros He' Hmax Hv. unfold binary_round. rewrite <- He'.
  destruct Hv as [[Hle HM]|[Hle HM]].
  - destruct (shl_align_spec M ez e' Hle) as (m'' & -> & Hm'').
    assert (m'' = m') as -> by lia.
    apply binary_round_aux_exact; [|lia|lia|rewrite Z.sub_diag; lia].
    rewrite <- (same_value_digits M ez m' e'); [done|]. left. done.
  - rewrite shl_align_id by done.
    by apply binary_round_aux_exact.
Qed.

(** ** Numbers on a grid [h * 2^k] *)

Lemma pow2_pos n : 0 ≤ n → 0 < 2 ^ n.
Proof. intros. apply Z.pow_pos_nonneg; lia. Qed.

Lemma pow2_split a b : 0 ≤ a → 0 ≤ b → 2 ^ (a + b) = 2 ^ a * 2 ^ b.
Proof. intros. by apply Z.pow_add_r. Qed.

Lemma grid_e_le h k :
  h ≠ 0 → Z.abs h < 2 ^ 53 → -1074 ≤ k → grid_e h k ≤ k.
Proof.
  intros Hh Hb Hk. unfold grid_e. rewrite fexp_eq.
  assert (Z.log2 (Z.abs h) < 53) by (apply Z.log2_lt_pow2; lia). lia.
Qed.

Lemma grid_m_pos h k :
  h ≠ 0 → Z.abs h < 2 ^ 53 → -1074 ≤ k →
  Z.pos (grid_m h k) = Z.abs h * 2 ^ (k - grid_e h k).
Proof.
  intros Hh Hb Hk. unfold grid_m. rewrite Z2Pos.id; [done|].
  pose proof (grid_e_le h k Hh Hb Hk).
  apply Z.mul_pos_pos; [lia|apply pow2_pos; lia].
Qed.

Lemma grid_digits h k :
  h ≠ 0 → Z.abs h < 2 ^ 53 → -1074 ≤ k →
  Z.pos (digits2_pos (grid_m h k)) + grid_e h k = Z.log2 (Z.abs h) + 1 + k.
Proof.
  intros Hh Hb Hk. pose proof (grid_e_le h k Hh Hb Hk).
  rewrite digits2_pos_log2, (grid_m_pos h k), Z.log2_mul_pow2; lia.
Qed.

Lemma binary_round_grid s (p : positive) k :
  Z.pos p < 2 ^ 53 → -1074 ≤ k ≤ 971 →
  binary_round prec emax s p k
  = S754_finite s (grid_m (Z.pos p) k) (grid_e (Z.pos p) k).
Proof.
  intros Hb Hk.
  pose proof (grid_e_le (Z.pos p) k) as Hle.
  pose proof (grid_m_pos (Z.pos p) k) as Hm.
  apply binary_round_exact.
  - unfold grid_e. by rewrite digits2_pos_log2.
  - lia.
  - left. split; [lia|]. rewrite Hm; lia.
Qed.

Lemma binary_normalize_grid h k :
  h ≠ 0 → Z.abs h < 2 ^ 53 → -1074 ≤ k ≤ 971 →
  binary_normalize prec emax h k false
  = S754_finite (h <? 0) (grid_m h k) (grid_e h k).
Proof.
  intros Hh Hb Hk. destruct h as [|p|p]; [done| |]; simpl binary_normalize.
  - by apply binary_round_grid.
  - rewrite binary_round_grid by (done || lia). done.
Qed.

Lemma binary_normalize_valid h k :
  Z.abs h < 2 ^ 53 → -1074 ≤ k ≤ 971 →
  valid_binary (binary_normalize prec emax h k false) = true.
Proof.
  intros Hb Hk. destruct (decide (h = 0)) as [->|Hh]; [done|].
  rewrite binary_normalize_grid by done.
  unfold SpecFloat.valid_binary, bounded, canonical_mantissa.
  rewrite grid_digits by (done || lia). fold (grid_e h k).
  rewrite Z.eqb_refl. simpl. apply Z.leb_le.
  pose proof (grid_e_le h k). change (emax - prec) with 971. lia.
Qed.

Lemma Prim2SF_dyadic h k :
  Z.abs h < 2 ^ 53 → -1074 ≤ k ≤ 971 →
  Prim2SF (dyadic h k) = binary_normalize prec emax h k false.
Proof.
  intros. unfold dyadic. by apply Prim2SF_SF2Prim, binary_normalize_valid.
Qed.

(** Rescaling the mantissa does not change the number. *)
Lemma binary_normalize_rescale h k j :
  0 ≤ j → Z.abs h < 2 ^ 53 → -1074 ≤ k ≤ 971 →
  binary_normalize prec emax (h * 2 ^ j) (k - j) false
  = binary_normalize prec emax h k false.
Proof.
  intros Hj Hb Hk. destruct (decide (h = 0)) as [->|Hh]; [done|].
  rewrite (binary_normalize_grid h k) by done.
  pose proof (grid_e_le h k Hh Hb ltac:(lia)) as Hle.
  pose proof (grid_m_pos h k Hh Hb ltac:(lia)) as Hm.
  pose proof (pow2_pos j Hj) as Hpj.
  assert (∀ s (p : positive), Z.pos p = Z.abs h * 2 ^ j →
            binary_round prec emax s p (k - j)
            = S754_finite s (grid_m h k) (grid_e h k)) as Hround.
  { intros s p Hp. apply binary_round_exact.
    - unfold grid_e. rewrite digits2_pos_log2, Hp, Z.log2_mul_pow2 by lia.
      f_equal. lia.
    - lia.
    - destruct (decide (grid_e h k ≤ k - j)).
      + left. split; [done|]. rewrite Hm, Hp, <- Z.mul_assoc, <- pow2_split by lia.
        do 2 f_equal. lia.
      + right. split; [lia|]. rewrite Hm, Hp, <- Z.mul_assoc, <- pow2_split by lia.
        do 2 f_equal. lia. }
  destruct h as [|p|p]; [done| |].
  - assert (0 < Z.pos p * 2 ^ j) as Hpos by lia.
    destruct (Z.pos p * 2 ^ j) as [|q|q] eqn:Hq; [lia| |lia].
    simpl binary_normalize. apply Hround. simpl Z.abs. lia.
  - assert (Z.neg p * 2 ^ j < 0) as Hneg by lia.
    destruct (Z.neg p * 2 ^ j) as [|q|q] eqn:Hq; [lia|lia|].
    simpl binary_normalize. apply Hround. simpl Z.abs. lia.
Qed.

Lemma cond_Zopp_abs h c :
  h ≠ 0 → cond_Zopp (h <? 0) (Z.abs h * c) = h * c.
Proof.
  intros Hh. unfold cond_Zopp. destruct (Z.ltb_spec h 0); lia.
Qed.

Lemma aligned_mantissa h k ez :
  h ≠ 0 → Z.abs h < 2 ^ 53 → -1074 ≤ k → ez ≤ grid_e h k →
  cond_Zopp (h <? 0) (Z.pos (shl_align (grid_m h k) (grid_e h k) ez).1)
  = h * 2 ^ (k - ez).
Proof.
  intros Hh Hb Hk Hez.
  destruct (shl_align_spec (grid_m h k) (grid_e h k) ez Hez) as (m' & -> & Hm').
  pose proof (grid_e_le h k Hh Hb Hk).
  simpl. rewrite Hm', grid_m_pos, <- Z.mul_assoc, <- pow2_split by (done || lia).
  replace (k - grid_e h k + (grid_e h k - ez)) with (k - ez) by lia.
  by apply cond_Zopp_abs.
Qed.

Lemma SFadd_grid h1 h2 k :
  Z.abs h1 < 2 ^ 53 → Z.abs h2 < 2 ^ 53 → Z.abs (h1 + h2) < 2 ^ 53 →
  -1074 ≤ k ≤ 971 →
  SFadd prec emax (binary_normalize prec emax h1 k false)
    (binary_normalize prec emax h2 k false)
  = binary_normalize prec emax (h1 + h2) k false.
Proof.
  intros Hb1 Hb2 Hb Hk.
  destruct (decide (h1 = 0)) as [->|Hh1].
  { destruct (decide (h2 = 0)) as [->|Hh2]; [done|].
    rewrite Z.add_0_l. by rewrite (binary_normalize_grid h2 k). }
  destruct (decide (h2 = 0)) as [->|Hh2].
  { rewrite Z.add_0_r. by rewrite (binary_normalize_grid h1 k). }
  rewrite (binary_normalize_grid h1 k), (binary_normalize_grid h2 k) by done.
  unfold SFadd.
  set (ez := Z.min (grid_e h1 k) (grid_e h2 k)).
  rewrite !aligned_mantissa by (done || lia).
  pose proof (grid_e_le h1 k Hh1 Hb1 ltac:(lia)).
  rewrite <- Z.mul_add_distr_r.
  replace ez with (k - (k - ez)) at 2 by lia.
  apply binary_normalize_rescale; lia.
Qed.

Lemma SFsub_grid h1 h2 k :
  Z.abs h1 < 2 ^ 53 → Z.abs h2 < 2 ^ 53 → Z.abs (h1 - h2) < 2 ^ 53 →
  -1074 ≤ k ≤ 971 →
  SFsub prec emax (binary_normalize prec emax h1 k false)
    (binary_normalize prec emax h2 k false)
  = binary_normalize prec emax (h1 - h2) k false.
Proof.
  intros Hb1 Hb2 Hb Hk.
  destruct (decide (h2 = 0)) as [->|Hh2].
  { rewrite Z.sub_0_r. destruct (decide (h1 = 0)) as [->|Hh1]; [done|].
    by rewrite (binary_normalize_grid h1 k). }
  destruct (decide (h1 = 0)) as [->|Hh1].
  { rewrite (binary_normalize_grid h2 k), (binary_normalize_grid (0 - h2) k)
      by (done || lia).
    simpl. unfold grid_m, grid_e. rewrite Z.abs_opp.
    f_equal. destruct (Z.ltb_spec h2 0), (Z.ltb_spec (- h2) 0); done || lia. }
  rewrite (binary_normalize_grid h1 k), (binary_normalize_grid h2 k) by done.
  unfold SFsub.
  set (ez := Z.min (grid_e h1 k) (grid_e h2 k)).
  rewrite !aligned_mantissa by (done || lia).
  pose proof (grid_e_le h1 k Hh1 Hb1 ltac:(lia)).
  rewrite <- Z.mul_sub_distr_r.
  replace ez with (k - (k - ez)) at 2 by lia.
  apply binary_normalize_rescale; lia.
Qed.

(** ** Multiplying and dividing by one *)

Lemma valid_finite_canonical s m e :
  valid_binary (S754_finite s m e) = true →
  e = fexp prec emax (Z.pos (digits2_pos m) + e) ∧ e ≤ 971.
Proof.
  unfold SpecFloat.valid_binary, bounded, canonical_mantissa.
  intros [Hc He]%andb_true_iff. apply Z.eqb_eq in Hc. apply Z.leb_le in He.
  change (emax - prec) with 971 in He. done.
Qed.

Lemma SFmul_one x :
  valid_binary x = true →
  match x with S754_zero _ | S754_finite _ _ _ => True | _ => False end →
  SFmul prec emax x sf_one = x.
Proof.
  destruct x as [s|s| |s m e]; try done; intros Hvalid _.
  - by destruct s.
  - apply valid_finite_canonical in Hvalid as [Hc He].
    unfold SFmul, sf_one. rewrite xorb_false_r.
    apply binary_round_aux_exact; [|done|lia|].
    + rewrite (digits2_pos_shift m _ 52); [|lia|by rewrite Pos2Z.inj_mul].
      rewrite Hc at 1. f_equal. lia.
    + rewrite Pos2Z.inj_mul. f_equal. by replace (e - (e + -52)) with 52 by lia.
Qed.

Lemma SFdiv_core_one m e :
  e = fexp prec emax (Z.pos (digits2_pos m) + e) →
  ∃ q e', SFdiv_core_binary prec emax (Z.pos m) e 4503599627370496 (-52)
          = (Z.pos q, e', loc_Exact) ∧
          e' ≤ e ∧ Z.pos q = Z.pos m * 2 ^ (e - e').
Proof.
  intros Hc. rewrite fexp_eq in Hc.
  set (e' := Z.max (Z.pos (digits2_pos m) + e - 54) (-1074)).
  assert (e' ≤ e) as Hle by lia.
  assert (0 < Z.pos m * 2 ^ (e - e')) as Hpos.
  { apply Z.mul_pos_pos; [lia|apply pow2_pos; lia]. }
  exists (Z.to_pos (Z.pos m * 2 ^ (e - e'))), e'.
  rewrite Z2Pos.id by done. split; [|done].
  cbv beta zeta delta [SFdiv_core_binary].
  change (Zdigits2 (Z.pos m)) with (Z.pos (digits2_pos m)).
  change (Zdigits2 4503599627370496) with 53.
  rewrite fexp_eq.
  replace (Z.min (Z.max (Z.pos (digits2_pos m) + e - (53 + -52) - 53) (-1074))
             (e - -52)) with e' by lia.
  destruct (e - -52 - e') as [|p|p] eqn:Hs; [lia| |lia].
  rewrite Z.shiftl_mul_pow2 by lia.
  assert (Z.pos m * 2 ^ Z.pos p
          = Z.pos m * 2 ^ (e - e') * 4503599627370496) as ->.
  { rewrite <- Z.mul_assoc. f_equal.
    change 4503599627370496 with (2 ^ 52).
    rewrite <- pow2_split by lia. f_equal. lia. }
  pose proof (Z.div_eucl_eq (Z.pos m * 2 ^ (e - e') * 4503599627370496)
                4503599627370496 ltac:(lia)) as Heq.
  pose proof (Z.mod_pos_bound (Z.pos m * 2 ^ (e - e') * 4503599627370496)
                4503599627370496 ltac:(lia)) as Hmod.
  unfold Z.modulo in Hmod.
  destruct (Z.div_eucl _ _) as [q r]. simpl in Hmod.
  assert (r = 0 ∧ q = Z.pos m * 2 ^ (e - e')) as [-> ->] by lia.
  done.
Qed.

Lemma SFdiv_one x :
  valid_binary x = true →
  match x with S754_zero _ | S754_finite _ _ _ => True | _ => False end →
  SFdiv prec emax x sf_one = x.
Proof.
  destruct x as [s|s| |s m e]; try done; intros Hvalid _.
  - by destruct s.
  - apply valid_finite_canonical in Hvalid as [Hc He].
    destruct (SFdiv_core_one m e Hc) as (q & e' & Hcore & Hle & Hq).
    unfold SFdiv, sf_one. rewrite Hcore, xorb_false_r.
    apply binary_round_aux_exact; [|done|done|done].
    rewrite (digits2_pos_shift m q (e - e')) by (lia || done).
    rewrite Hc at 1. f_equal. lia.
Qed.

Lemma Prim2SF_one : Prim2SF 1 = sf_one.
Proof. reflexivity. Qed.

Lemma float_mul_one x : finite x → (x * 1)%float = x.
Proof.
  intros Hx. apply Prim2SF_inj. rewrite mul_spec, Prim2SF_one.
  apply SFmul_one; [apply Prim2SF_valid|].
  unfold finite in Hx. by destruct (Prim2SF x).
Qed.

Lemma float_div_one x : finite x → (x / 1)%float = x.
Proof.
  intros Hx. apply Prim2SF_inj. rewrite div_spec, Prim2SF_one.
  apply SFdiv_one; [apply Prim2SF_valid|].
  unfold finite in Hx. by destruct (Prim2SF x).
Qed.

(** ** Arithmetic of halves *)

Lemma dyadic_finite h k :
  Z.abs h < 2 ^ 53 → -1074 ≤ k ≤ 971 → finite (dyadic h k).
Proof.
  intros Hb Hk. unfold finite. rewrite Prim2SF_dyadic by done.
  destruct (decide (h = 0)) as [->|Hh]; [done|].
  by rewrite binary_normalize_grid.
Qed.

Lemma dyadic_add h1 h2 k :
  Z.abs h1 < 2 ^ 53 → Z.abs h2 < 2 ^ 53 → Z.abs (h1 + h2) < 2 ^ 53 →
  -1074 ≤ k ≤ 971 →
  (dyadic h1 k + dyadic h2 k)%float = dyadic (h1 + h2) k.
Proof.
  intros. apply Prim2SF_inj.
  rewrite add_spec, !Prim2SF_dyadic by done. by apply SFadd_grid.
Qed.

Lemma dyadic_sub h1 h2 k :
  Z.abs h1 < 2 ^ 53 → Z.abs h2 < 2 ^ 53 → Z.abs (h1 - h2) < 2 ^ 53 →
  -1074 ≤ k ≤ 971 →
  (dyadic h1 k - dyadic h2 k)%float = dyadic (h1 - h2) k.
Proof.
  intros. apply Prim2SF_inj.
  rewrite sub_spec, !Prim2SF_dyadic by done. by apply SFsub_grid.
Qed.

Lemma dyadic_rescale h k j :
  0 ≤ j → Z.abs h < 2 ^ 53 → -1074 ≤ k ≤ 971 →
  dyadic (h * 2 ^ j) (k - j) = dyadic h k.
Proof. intros. unfold dyadic. by rewrite binary_normalize_rescale. Qed.

Lemma half_double z : Z.abs z < 2 ^ 53 → half (2 * z) = dyadic z 0.
Proof.
  intros Hb. unfold half. replace (2 * z) with (z * 2 ^ 1) by lia.
  apply (dyadic_rescale z 0 1); lia.
Qed.

Lemma float_of_int_exact z :
  Z.abs z < 2 ^ 53 → float_of_int z = Ok (half (2 * z)).
Proof.
  intros Hb. rewrite half_double by done.
  unfold float_of_int, dyadic.
  destruct (decide (z = 0)) as [->|Hz]; [done|].
  by rewrite binary_normalize_grid by (done || lia).
Qed.

Lemma double_of_index_exact i :
  Z.of_nat i < 2 ^ 53 → double_of_index i = half (2 * Z.of_nat i).
Proof. intros Hb. rewrite half_double by lia. done. Qed.

Lemma half_add h1 h2 :
  Z.abs h1 < 2 ^ 53 → Z.abs h2 < 2 ^ 53 → Z.abs (h1 + h2) < 2 ^ 53 →
  (half h1 + half h2)%float = half (h1 + h2).
Proof. intros. apply dyadic_add; lia. Qed.

Lemma half_sub h1 h2 :
  Z.abs h1 < 2 ^ 53 → Z.abs h2 < 2 ^ 53 → Z.abs (h1 - h2) < 2 ^ 53 →
  (half h1 - half h2)%float = half (h1 - h2).
Proof. intros. apply dyadic_sub; lia. Qed.

Lemma half_is_half h : Z.abs h < 2 ^ 53 → is_half (half h) h.
Proof.
  intros Hb. unfold is_half, half. rewrite Prim2SF_dyadic by lia.
  destruct (decide (h = 0)) as [->|Hh]; [done|].
  rewrite binary_normalize_grid by (done || lia).
  pose proof (grid_e_le h (-1) Hh Hb ltac:(lia)).
  pose proof (grid_m_pos h (-1) Hh Hb ltac:(lia)) as Hm.
  split; [done|].
  destruct (Z.ltb_spec h 0).
  - rewrite <- Pos2Z.opp_pos, Hm. lia.
  - rewrite Hm. lia.
Qed.

Lemma float_ceil_half n :
  0 < n < 2 ^ 52 → float_ceil (half (2 * n)) = Ok n.
Proof.
  intros Hn. unfold float_ceil.
  pose proof (half_is_half (2 * n) ltac:(lia)) as Hhalf.
  unfold is_half in Hhalf. unfold half in *. rewrite Prim2SF_dyadic in * by lia.
  rewrite binary_normalize_grid in * by lia.
  destruct Hhalf as [He Hm].
  destruct (Z.leb_spec 0 (grid_e (2 * n) (-1))); [lia|].
  f_equal. rewrite Hm.
  replace (- (2 * n * 2 ^ (-1 - grid_e (2 * n) (-1))))
    with ((- n) * 2 ^ (- grid_e (2 * n) (-1))).
  - rewrite Z.div_mul; [lia|]. pose proof (pow2_pos (- grid_e (2 * n) (-1))). lia.
  - replace (- grid_e (2 * n) (-1)) with (1 + (-1 - grid_e (2 * n) (-1))) by lia.
    rewrite pow2_split by lia. lia.
Qed.

(** ** Order of halves *)

Lemma grid_key_mono a b k :
  0 < a → a < b → b < 2 ^ 53 → -1074 ≤ k →
  grid_e a k ≤ grid_e b k ∧
  (grid_e a k = grid_e b k → Z.pos (grid_m a k) < Z.pos (grid_m b k)).
Proof.
  intros Ha Hab Hb Hk.
  pose proof (grid_e_le a k ltac:(lia) ltac:(lia) Hk).
  pose proof (grid_e_le b k ltac:(lia) ltac:(lia) Hk).
  split.
  - unfold grid_e. rewrite !fexp_eq, !Z.abs_eq by lia.
    pose proof (Z.log2_le_mono a b ltac:(lia)). lia.
  - intros He. rewrite !grid_m_pos by lia. rewrite He, !Z.abs_eq by lia.
    apply Z.mul_lt_mono_pos_r; [apply pow2_pos; lia|done].
Qed.

Lemma sf_key_grid h k :
  Z.abs h < 2 ^ 53 → -1074 ≤ k ≤ 971 →
  sf_key (binary_normalize prec emax h k false)
  = if decide (h = 0) then (0, 0, 0)
    else if decide (h < 0) then (-1, - grid_e h k, - Z.pos (grid_m h k))
    else (1, grid_e h k, Z.pos (grid_m h k)).
Proof.
  intros Hb Hk. destruct (decide (h = 0)) as [->|Hh]; [done|].
  rewrite binary_normalize_grid by done.
  destruct (decide (h < 0)), (Z.ltb_spec h 0); done || lia.
Qed.

Lemma dyadic_key_lt a b k :
  Z.abs a < 2 ^ 53 → Z.abs b < 2 ^ 53 → -1074 ≤ k ≤ 971 → a < b →
  key_lt (float_key (dyadic a k)) (float_key (dyadic b k)).
Proof.
  intros Ha Hb Hk Hab. unfold float_key.
  rewrite !Prim2SF_dyadic, !sf_key_grid by done. unfold key_lt.
  repeat destruct (decide _); simpl; try lia.
  - destruct (grid_key_mono (- b) (- a) k) as [He Hm]; try lia.
    assert (grid_e (- b) k = grid_e b k ∧ grid_e (- a) k = grid_e a k) as [E1 E2].
    { unfold grid_e. by rewrite !Z.abs_opp. }
    assert (grid_m (- b) k = grid_m b k ∧ grid_m (- a) k = grid_m a k) as [M1 M2].
    { unfold grid_m, grid_e. by rewrite !Z.abs_opp. }
    rewrite E1, E2, M1, M2 in *. lia.
  - destruct (grid_key_mono a b k) as [He Hm]; lia.
Qed.

Lemma dyadic_not_nan h k :
  Z.abs h < 2 ^ 53 → -1074 ≤ k ≤ 971 → not_nan (dyadic h k).
Proof.
  intros Hb Hk. apply not_nan_Prim2SF. rewrite Prim2SF_dyadic by done.
  destruct (decide (h = 0)) as [->|Hh]; [done|].
  by rewrite binary_normalize_grid.
Qed.

Lemma half_compare a b :
  Z.abs a < 2 ^ 53 → Z.abs b < 2 ^ 53 →
  (half a <? half b)%float = (a <? b) ∧ (half a <=? half b)%float = (a <=? b).
Proof.
  intros Ha Hb. unfold half.
  pose proof (dyadic_not_nan a (-1) Ha ltac:(lia)) as Hna.
  pose proof (dyadic_not_nan b (-1) Hb ltac:(lia)) as Hnb.
  pose proof (float_ltb_key _ _ Hna Hnb) as Hlt.
  pose proof (float_leb_key _ _ Hna Hnb) as Hle.
  assert (a < b ∨ a = b ∨ b < a) as [Hab|[->|Hab]] by lia.
  - pose proof (dyadic_key_lt a b (-1) Ha Hb ltac:(lia) Hab) as Hk.
    destruct (Z.ltb_spec a b), (Z.leb_spec a b); try lia.
    split; [by apply Hlt|]. apply Hle. unfold key_lt, key_le in *. lia.
  - destruct (Z.ltb_spec b b), (Z.leb_spec b b); try lia. split.
    + destruct (_ <? _)%float; [|done]. destruct Hlt as [Hlt _].
      specialize (Hlt eq_refl). unfold key_lt in Hlt. lia.
    + apply Hle. unfold key_le. lia.
  - pose proof (dyadic_key_lt b a (-1) Hb Ha ltac:(lia) Hab) as Hk.
    destruct (Z.ltb_spec a b), (Z.leb_spec a b); try lia. split.
    + destruct (_ <? _)%float; [|done]. destruct Hlt as [Hlt _].
      specialize (Hlt eq_refl). unfold key_lt in *. lia.
    + destruct (_ <=? _)%float; [|done]. destruct Hle as [Hle _].
      specialize (Hle eq_refl). unfold key_lt, key_le in *. lia.
Qed.

(** ** [min] and [max] of ints *)

Lemma py_min_int_bounds xs lo :
  py_min_int xs = Ok lo → lo ∈ xs ∧ ∀ x, x ∈ xs → lo ≤ x.
Proof.
  destruct xs as [|x0 xs]; [done|]. simpl. intros [= <-].
  assert (∀ cur,
            let m := foldl (λ cur item, if item <? cur then item else cur) cur xs in
            (m = cur ∨ m ∈ xs) ∧ m ≤ cur ∧ ∀ x, x ∈ xs → m ≤ x) as Hfold.
  { induction xs as [|x xs IH]; intros cur; simpl.
    - split; [by left|]. split; [lia|by intros x Hx%elem_of_nil].
    - destruct (Z.ltb_spec x cur).
      + destruct (IH x) as (Hin & Hle & Hall). split; [|split].
        * right. destruct Hin as [->|Hin]; [by left|by right].
        * lia.
        * intros y [->|Hy]%elem_of_cons; [done|by apply Hall].
      + destruct (IH cur) as (Hin & Hle & Hall). split; [|split].
        * destruct Hin as [->|Hin]; [by left|right; by right].
        * done.
        * intros y [->|Hy]%elem_of_cons; [lia|by apply Hall]. }
  destruct (Hfold x0) as (Hin & Hle & Hall). split.
  - destruct Hin as [->|Hin]; [by left|by right].
  - intros x [->|Hx]%elem_of_cons; auto.
Qed.

Lemma py_max_int_bounds xs hi :
  py_max_int xs = Ok hi → hi ∈ xs ∧ ∀ x, x ∈ xs → x ≤ hi.
Proof.
  destruct xs as [|x0 xs]; [done|]. simpl. intros [= <-].
  assert (∀ cur,
            let m := foldl (λ cur item, if cur <? item then item else cur) cur xs in
            (m = cur ∨ m ∈ xs) ∧ cur ≤ m ∧ ∀ x, x ∈ xs → x ≤ m) as Hfold.
  { induction xs as [|x xs IH]; intros cur; simpl.
    - split; [by left|]. split; [lia|by intros x Hx%elem_of_nil].
    - destruct (Z.ltb_spec cur x).
      + destruct (IH x) as (Hin & Hle & Hall). split; [|split].
        * right. destruct Hin as [->|Hin]; [by left|by right].
        * lia.
        * intros y [->|Hy]%elem_of_cons; [done|by apply Hall].
      + destruct (IH cur) as (Hin & Hle & Hall). split; [|split].
        * destruct Hin as [->|Hin]; [by left|right; by right].
        * done.
        * intros y [->|Hy]%elem_of_cons; [lia|by apply Hall]. }
  destruct (Hfold x0) as (Hin & Hle & Hall). split.
  - destruct Hin as [->|Hin]; [by left|by right].
  - intros x [->|Hx]%elem_of_cons; auto.
Qed.

(** ** [np.arange] on halves *)

Lemma half_finite h : Z.abs h < 2 ^ 53 → finite (half h).
Proof. intros. apply dyadic_finite; lia. Qed.

Lemma np_arange_halves (a : Z) (n : nat) :
  (0 < n)%nat → Z.abs a + 2 * Z.of_nat n < 2 ^ 53 →
  np_arange (half a) (half (a + 2 * Z.of_nat n)) 1
  = Ok ((λ i, half (a + 2 * Z.of_nat i)) <$> seq 0 n).
Proof.
  intros Hn Hb. unfold np_arange.
  change (float_of_int 1) with (Ok (half 2)). simpl.
  assert (2 ^ 52 * 2 = 2 ^ 53) as Hpow by done.
  rewrite (half_sub (a + 2 * Z.of_nat n) a) by lia.
  replace (a + 2 * Z.of_nat n - a) with (2 * Z.of_nat n) by lia.
  change (half 2) with 1%float.
  rewrite float_div_one by (apply half_finite; lia).
  unfold arange_length. rewrite float_ceil_half by lia.
  assert (2 ^ 53 < 2 ^ 63) as Hpow63 by done.
  destruct (Z.ltb_spec (Z.of_nat n) (- 2 ^ 63)); [lia|].
  destruct (Z.ltb_spec (2 ^ 63) (Z.of_nat n)); [lia|].
  destruct (Z.eqb_spec (Z.of_nat n) (2 ^ 63)); [lia|]. simpl.
  destruct (Z.leb_spec (Z.of_nat n) 0); [lia|]. simpl. f_equal.
  rewrite Nat2Z.id.
  change 1%float with (half 2).
  rewrite (half_add a 2), (half_sub (a + 2) a) by lia.
  replace (a + 2 - a) with 2 by lia.
  destruct n as [|[|n]]; [lia|simpl; do 3 f_equal; lia|].
  replace (S (S n) - 2)%nat with n by lia.
  rewrite firstn_all2 by (simpl; rewrite length_fmap, length_seq; lia).
  simpl. replace (a + 2 * Z.of_nat 0) with a by lia.
  replace (a + 2 * Z.of_nat 1) with (a + 2) by lia. do 2 f_equal.
  apply list_fmap_ext. intros j i Hi%lookup_seq.
  rewrite double_of_index_exact by lia.
  change (half 2) with 1%float.
  rewrite float_mul_one by (apply half_finite; lia).
  rewrite half_add by lia. done.
Qed.

Lemma centred_edges_lookup lo hi (i : nat) :
  (i < Z.to_nat (hi - lo + 2))%nat →
  centred_edges lo hi !! i = Some (half (2 * (lo + Z.of_nat i) - 1)).
Proof.
  intros Hi. unfold centred_edges.
  by rewrite list_lookup_fmap, lookup_seq_lt.
Qed.

Lemma charge_bins_centred (cs : list Z) :
  cs ≠ [] → Forall (λ c, Z.abs c ≤ 2 ^ 50) cs →
  ∃ lo hi,
    lo ∈ cs ∧ hi ∈ cs ∧ (∀ c, c ∈ cs → lo ≤ c ≤ hi) ∧
    charge_bins cs = Ok (centred_edges lo hi).
Proof.
  intros Hne Hall. rewrite Forall_forall in Hall.
  destruct (sorted_spec cs) as (_ & _ & Hin).
  unfold charge_bins.
  destruct (py_min_int (sorted (py_set cs))) as [lo|] eqn:Hlo.
  2:{ destruct cs as [|c cs]; [done|].
      assert (c ∈ sorted (py_set (c :: cs))) as Hc by (apply Hin; by left).
      destruct (sorted (py_set (c :: cs))); [by apply elem_of_nil in Hc|done]. }
  destruct (py_max_int (sorted (py_set cs))) as [hi|] eqn:Hhi.
  2:{ by destruct (sorted (py_set cs)). }
  apply py_min_int_bounds in Hlo as [Hlo_in Hlo].
  apply py_max_int_bounds in Hhi as [Hhi_in Hhi].
  apply Hin in Hlo_in, Hhi_in.
  exists lo, hi. split; [done|]. split; [done|].
  split; [intros c Hc%Hin; split; [by apply Hlo|by apply Hhi]|].
  pose proof (Hall lo Hlo_in). pose proof (Hall hi Hhi_in).
  assert (lo ≤ hi) by (apply Hlo; by apply Hin).
  assert (2 ^ 50 * 8 = 2 ^ 53) as Hpow by done.
  assert (2 ^ 50 * 4 = 2 ^ 52) as Hpow' by done.
  assert (2 ^ 50 * 2 = 2 ^ 51) as Hpow'' by done.
  simpl. unfold int_sub_float, int_add_float.
  rewrite !float_of_int_exact by lia. simpl.
  change 0.5%float with (half 1). change 1.5%float with (half 3).
  rewrite half_sub, half_add by lia.
  pose proof (np_arange_halves (2 * lo - 1) (Z.to_nat (hi - lo + 2))) as Hnp.
  rewrite Z2Nat.id in Hnp by lia.
  replace (2 * lo - 1 + 2 * (hi - lo + 2)) with (2 * hi + 3) in Hnp by lia.
  rewrite Hnp by lia. f_equal. unfold centred_edges.
  apply list_fmap_ext. intros _ i _. f_equal. lia.
Qed.

Lemma in_bin_centred lo hi c (k' : nat) :
  Z.abs lo ≤ 2 ^ 50 → Z.abs hi ≤ 2 ^ 50 → lo ≤ c ≤ hi →
  in_bin (centred_edges lo hi) k' (half (2 * c)) = true ↔ k' = Z.to_nat (c - lo).
Proof.
  intros Hlo Hhi Hc.
  assert (2 ^ 50 * 8 = 2 ^ 53) as Hpow by done.
  unfold in_bin.
  destruct (decide (S k' < Z.to_nat (hi - lo + 2))%nat) as [Hk|Hk].
  - rewrite !centred_edges_lookup by lia.
    destruct (half_compare (2 * (lo + Z.of_nat k') - 1) (2 * c)
                ltac:(lia) ltac:(lia)) as [_ ->].
    destruct (half_compare (2 * c) (2 * (lo + Z.of_nat (S k')) - 1)
                ltac:(lia) ltac:(lia)) as [-> ->].
    destruct (decide _);
      destruct (Z.leb_spec (2 * (lo + Z.of_nat k') - 1) (2 * c));
      destruct (Z.leb_spec (2 * c) (2 * (lo + Z.of_nat (S k')) - 1));
      destruct (Z.ltb_spec (2 * c) (2 * (lo + Z.of_nat (S k')) - 1));
      simpl; split; try done; lia.
  - assert (centred_edges lo hi !! S k' = None) as ->.
    { apply lookup_ge_None_2. unfold centred_edges.
      rewrite length_fmap, length_seq. lia. }
    destruct (centred_edges lo hi !! k'); split; try done; lia.
Qed.

(** C6 (as amended). For a non-empty collection of charge states of
    magnitude at most 2^50, the bin edges are [c - 0.5] for every integer
    [c] from the minimum charge to the maximum charge plus one, each held
    exactly; so every integer charge [c] in that range has the edges
    [c - 0.5] and [c + 0.5] around it, lies strictly between them, and
    falls in that bin and in no other.  For the charge states {2, 3, 5} the
    edges are [1.5, 2.5, 3.5, 4.5, 5.5]: four bins, with 2, 3 and 5 in the
    first, second and fourth, and none of them in the third. *)
Theorem C6_charge_bins (cs : list Z) :
  (cs ≠ [] → Forall (λ c, Z.abs c ≤ 2 ^ 50) cs →
   ∃ lo hi edges,
     lo ∈ cs ∧ hi ∈ cs ∧ (∀ c, c ∈ cs → lo ≤ c ≤ hi) ∧
     charge_bins cs = Ok edges ∧
     edges = centred_edges lo hi ∧
     length edges = Z.to_nat (hi - lo + 2) ∧
     ∀ c, lo ≤ c ≤ hi →
       ∃ below above x,
         edges !! Z.to_nat (c - lo) = Some below ∧
         edges !! S (Z.to_nat (c - lo)) = Some above ∧
         is_half below (2 * c - 1) ∧ is_half above (2 * c + 1) ∧
         float_of_int c = Ok x ∧ is_half x (2 * c) ∧
         (below <? x)%float = true ∧ (x <? above)%float = true ∧
         ∀ k, in_bin edges k x = true ↔ k = Z.to_nat (c - lo)) ∧
  (py_set cs = {[2; 3; 5]} →
   let edges := [1.5; 2.5; 3.5; 4.5; 5.5]%float in
   charge_bins cs = Ok edges ∧
   in_bin edges 0 2 = true ∧ in_bin edges 1 3 = true ∧ in_bin edges 3 5 = true ∧
   in_bin edges 2 2 = false ∧ in_bin edges 2 3 = false ∧
   in_bin edges 2 5 = false).
Proof.
  split.
  - intros Hne Hall.
    destruct (charge_bins_centred cs Hne Hall) as (lo & hi & Hlo & Hhi & Hb & Hbins).
    rewrite Forall_forall in Hall.
    pose proof (Hall lo Hlo) as Hlo50. pose proof (Hall hi Hhi) as Hhi50.
    assert (2 ^ 50 * 8 = 2 ^ 53) as Hpow by done.
    exists lo, hi, (centred_edges lo hi).
    do 5 (split; [done|]). split.
    { unfold centred_edges. by rewrite length_fmap, length_seq. }
    intros c Hc.
    exists (half (2 * c - 1)), (half (2 * c + 1)), (half (2 * c)).
    rewrite !centred_edges_lookup by lia.
    split; [do 2 f_equal; lia|]. split; [do 2 f_equal; lia|].
    split; [apply half_is_half; lia|]. split; [apply half_is_half; lia|].
    split; [apply float_of_int_exact; lia|]. split; [apply half_is_half; lia|].
    destruct (half_compare (2 * c - 1) (2 * c) ltac:(lia) ltac:(lia)) as [-> _].
    destruct (half_compare (2 * c) (2 * c + 1) ltac:(lia) ltac:(lia)) as [-> _].
    split; [apply Z.ltb_lt; lia|]. split; [apply Z.ltb_lt; lia|].
    intros k. by apply in_bin_centred.
  - intros Hset edges. unfold charge_bins. rewrite Hset.
    repeat split; vm_compute; reflexivity.
Qed.

Lemma C6_charge_bins_witness :
  charge_bins [2; 3; 5; 3; 2] = Ok [1.5; 2.5; 3.5; 4.5; 5.5]%float ∧
  ∃ lo hi edges,
    charge_bins [3; 2; 5; 2] = Ok edges ∧ edges = centred_edges lo hi ∧
    length edges = Z.to_nat (hi - lo + 2).
Proof.
  split.
  - apply (C6_charge_bins [2; 3; 5; 3; 2]). vm_compute. reflexivity.
  - destruct (C6_charge_bins [3; 2; 5; 2]) as [Hgeneral _].
    destruct Hgeneral as (lo & hi & edges & _ & _ & _ & H1 & H2 & H3 & _).
    + discriminate.
    + repeat constructor; vm_compute; discriminate.
    + exists lo, hi, edges. repeat split; assumption.
Defined.

(** The claim as stated fails for a charge of 2^53: the two edges both
    equal the charge itself, so neither is half a unit away from it. *)
Lemma C6_counterexample :
  let x := 9007199254740992%float in
  float_of_int (2 ^ 53) = Ok x ∧
  charge_bins [2 ^ 53] = Ok [x; x] ∧
  ¬ is_half x (2 * 2 ^ 53 - 1) ∧ ¬ is_half x (2 * 2 ^ 53 + 1).
Proof.
  intros x. split; [vm_compute; reflexivity|]. split; [vm_compute; reflexivity|].
  split; vm_compute; intros [H _]; apply H; reflexivity.
Qed.

(** ** Ints that convert to a float *)

Lemma shr_1_div2 r : 0 ≤ shr_m r → shr_m (shr_1 r) = shr_m r / 2.
Proof.
  destruct r as [m r s]. simpl. intros Hm. rewrite <- Z.div2_div.
  by destruct m as [|[p|p|]|p].
Qed.

Lemma shr_iter_div (n : nat) r :
  0 ≤ shr_m r →
  shr_m (Nat.iter n shr_1 r) = shr_m r / 2 ^ Z.of_nat n.
Proof.
  intros Hr. induction n as [|n IH]; simpl Nat.iter.
  - by rewrite Z.div_1_r.
  - rewrite shr_1_div2, IH.
    + rewrite Z.div_div, Nat2Z.inj_succ, Z.pow_succ_r by lia.
      f_equal. lia.
    + rewrite IH. apply Z.div_pos; [done|apply pow2_pos; lia].
Qed.

Lemma digits2_pos_spec M :
  2 ^ (Z.pos (digits2_pos M) - 1) ≤ Z.pos M < 2 ^ Z.pos (digits2_pos M).
Proof.
  rewrite digits2_pos_log2.
  pose proof (Z.log2_spec (Z.pos M) ltac:(lia)) as H.
  replace (Z.log2 (Z.pos M) + 1 - 1) with (Z.log2 (Z.pos M)) by lia.
  replace (Z.log2 (Z.pos M) + 1) with (Z.succ (Z.log2 (Z.pos M))) by lia.
  done.
Qed.

Lemma round_nearest_even_bounds m l :
  m ≤ round_nearest_even m l ≤ m + 1.
Proof. destruct l as [|[]]; simpl; try destruct (Z.even m); lia. Qed.

(** The second shift of [binary_round_aux], after rounding to 53 bits. *)
Lemma round_renormalize s r e' :
  2 ^ 52 ≤ r ≤ 2 ^ 53 → -1074 ≤ e' → e' + 1 ≤ 971 →
  ∃ m e,
    (let '(mrs'', e'') := shr_fexp prec emax r e' loc_Exact in
     match shr_m mrs'' with
     | 0 => S754_zero s
     | Z.pos m =>
         if e'' <=? emax - prec then S754_finite s m e'' else S754_infinity s
     | Z.neg _ => S754_nan
     end) = S754_finite s m e.
Proof.
  intros Hr Hlo Hhi. change (emax - prec) with 971.
  destruct (decide (r = 2 ^ 53)) as [->|Hne].
  - unfold shr_fexp. change (Zdigits2 (2 ^ 53)) with 54. rewrite fexp_eq.
    replace (Z.max (54 + e' - 53) (-1074) - e') with 1 by lia.
    simpl. destruct (Z.leb_spec (e' + 1) 971); [|lia]. by eexists _, _.
  - destruct r as [|q|q]; [lia| |lia].
    assert (Z.log2 (Z.pos q) = 52) as Hlog.
    { apply Z.log2_unique; [lia|]. change (2 ^ (52 + 1)) with (2 ^ 53). lia. }
    unfold shr_fexp. simpl Zdigits2. rewrite digits2_pos_log2, Hlog, fexp_eq.
    replace (Z.max (52 + 1 + e' - 53) (-1074) - e') with 0 by lia.
    simpl. destruct (Z.leb_spec e' 971); [|lia]. by eexists _, _.
Qed.

Lemma binary_round_large s M :
  53 < Z.pos (digits2_pos M) ≤ 1023 →
  ∃ m e, binary_round prec emax s M 0 = S754_finite s m e.
Proof.
  intros Hd. pose proof (digits2_pos_spec M) as HM.
  set (d := Z.pos (digits2_pos M)) in *.
  unfold binary_round. rewrite Z.add_0_r, fexp_eq. fold d.
  rewrite shl_align_id by lia.
  unfold binary_round_aux.
  destruct (shr_fexp prec emax (Z.pos M) 0 loc_Exact) as [r1 e1] eqn:Hshr.
  unfold shr_fexp in Hshr. simpl Zdigits2 in Hshr. fold d in Hshr.
  rewrite Z.add_0_r, Z.sub_0_r, fexp_eq in Hshr.
  replace (Z.max (d - 53) (-1074)) with (d - 53) in Hshr by lia.
  unfold shr in Hshr.
  destruct (d - 53) as [|p|p] eqn:Hp; [lia| |lia].
  injection Hshr as <- <-. rewrite iter_pos_nat.
  set (r1 := Nat.iter (Pos.to_nat p) shr_1 _).
  assert (shr_m r1 = Z.pos M / 2 ^ Z.pos p) as Hm1.
  { unfold r1. rewrite shr_iter_div by (simpl; lia).
    by rewrite positive_nat_Z. }
  assert (0 < 2 ^ Z.pos p) as Hpow by (apply pow2_pos; lia).
  assert (2 ^ (d - 1) = 2 ^ Z.pos p * 2 ^ 52) as Hlow.
  { rewrite <- pow2_split by lia. f_equal. lia. }
  assert (2 ^ d = 2 ^ Z.pos p * 2 ^ 53) as Hhigh.
  { rewrite <- pow2_split by lia. f_equal. lia. }
  assert (2 ^ 52 ≤ shr_m r1 < 2 ^ 53) as Hr1.
  { rewrite Hm1. split.
    - apply Z.div_le_lower_bound; lia.
    - apply Z.div_lt_upper_bound; lia. }
  pose proof (round_nearest_even_bounds (shr_m r1) (loc_of_shr_record r1)).
  clearbody r1. apply round_renormalize; lia.
Qed.

Lemma float_of_int_is_Ok z : Z.abs z < 2 ^ 1023 → is_Ok (float_of_int z).
Proof.
  intros Hz. destruct (decide (Z.abs z < 2 ^ 53)) as [Hsmall|Hlarge].
  { rewrite float_of_int_exact by done. by eexists. }
  assert (∀ s (p : positive), Z.pos p = Z.abs z →
            ∃ m e, binary_round prec emax s p 0 = S754_finite s m e) as Hround.
  { intros s p Hp. apply binary_round_large. rewrite digits2_pos_log2. split.
    - assert (53 ≤ Z.log2 (Z.pos p)); [|lia].
      apply Z.log2_le_pow2; lia.
    - assert (Z.log2 (Z.pos p) < 1023); [|lia].
      apply Z.log2_lt_pow2; lia. }
  unfold float_of_int, binary_normalize.
  destruct z as [|p|p]; [by eexists| |].
  - destruct (Hround false p eq_refl) as (m & e & ->). by eexists.
  - destruct (Hround true p eq_refl) as (m & e & ->). by eexists.
Qed.

(** ** Charges are not validated *)

Lemma neutral_mass_zero_charge mz :
  finite mz →
  ∃ nm, derive_neutral_mass mz 0 = Ok nm ∧ (nm =? 0)%float = true.
Proof.
  intros Hmz. unfold derive_neutral_mass.
  change (float_of_int 0) with (Ok 0%float). simpl.
  eexists. split; [reflexivity|].
  rewrite FloatAxioms.eqb_spec, sub_spec, mul_spec.
  change (Prim2SF (0 * PROTON_MASS)) with (S754_zero false).
  change (Prim2SF 0) with (S754_zero false).
  unfold finite in Hmz.
  destruct (Prim2SF mz) as [s|s| |s m e]; try done; by destruct s.
Qed.

Lemma process_ion_complete ion mz charge st :
  complete ion = Some (mz, charge) →
  process_ion ion st =
  match derive_neutral_mass mz charge with
  | Ok nm => Ok (tt, push st [{| obs_mz := mz; obs_charge := charge;
                                obs_neutral_mass := nm |}])
  | Raise e => Raise e
  end.
Proof.
  intros Hc. rewrite process_ion_emits, Hc. simpl.
  unfold observe. simpl. by destruct (derive_neutral_mass mz charge).
Qed.

(** C8 (as amended). The extractor does not validate charges: when it
    returns, its charge list is, in order, the charge of every selected ion
    that carries both fields, whatever its value; it returns exactly when
    every such charge converts to a float, which every charge of magnitude
    below 2^1023 does, zero and negative ones included; and an ion with
    charge 0 and a finite m/z is recorded with a neutral mass equal to
    zero. *)
Theorem C8_charge_passed_through (doc : Document) :
  (∀ mzs chs nms,
     extract_precursor_data doc = Ok (mzs, chs, nms) →
     chs = snd <$> omap complete (document_ions doc)) ∧
  (is_Ok (extract_precursor_data doc) ↔
   Forall (λ mc : float * Z, is_Ok (float_of_int mc.2))
          (omap complete (document_ions doc))) ∧
  (Forall (λ mc : float * Z, Z.abs mc.2 < 2 ^ 1023)
          (omap complete (document_ions doc)) →
   is_Ok (extract_precursor_data doc)) ∧
  (∀ ion mz st,
     complete ion = Some (mz, 0) → finite mz →
     ∃ nm, process_ion ion st
           = Ok (tt, push st [{| obs_mz := mz; obs_charge := 0;
                                 obs_neutral_mass := nm |}]) ∧
           (nm =? 0)%float = true).
Proof.
  split; [|split; [|split]].
  - intros mzs chs nms (obs & Hobs & _ & -> & _)%extract_Ok_observations.
    unfold document_observations in Hobs. revert obs Hobs.
    induction (omap complete (document_ions doc)) as [|mc l IH];
      intros obs; simpl.
    + by intros [= <-].
    + destruct (observe mc) as [o|] eqn:Ho; simpl; [|done].
      destruct (traverse observe l) as [os|]; simpl; [|done].
      intros [= <-]. apply observe_Ok in Ho as (c & _ & ->).
      rewrite fmap_cons. simpl. f_equal. by apply IH.
  - apply extract_is_Ok.
  - intros Hall. apply extract_is_Ok. eapply Forall_impl; [exact Hall|].
    intros mc Hmc. by apply float_of_int_is_Ok.
  - intros ion mz st Hc Hmz.
    destruct (neutral_mass_zero_charge mz Hmz) as (nm & Hnm & Hzero).
    exists nm. by rewrite (process_ion_complete ion mz 0 st Hc), Hnm.
Qed.

Lemma C8_charge_passed_through_witness :
  (∃ mzs nms,
     extract_precursor_data negative_charge_doc = Ok (mzs, [0; -3; 2 ^ 40], nms)) ∧
  ∃ nm, process_ion ion_zero_charge empty_acc
        = Ok (tt, push empty_acc [{| obs_mz := 700.125; obs_charge := 0;
                                     obs_neutral_mass := nm |}]) ∧
        (nm =? 0)%float = true.
Proof.
  destruct (C8_charge_passed_through negative_charge_doc)
    as (Hchs & _ & Hok & Hzero).
  split.
  - destruct Hok as [[[mzs chs] nms] Hout].
    { repeat constructor; vm_compute; reflexivity. }
    exists mzs, nms. rewrite Hout. do 2 f_equal.
    rewrite (Hchs _ _ _ Hout). vm_compute. reflexivity.
  - apply (Hzero ion_zero_charge 700.125%float empty_acc); [reflexivity|].
    vm_compute. exact I.
Defined.

(** The claim as stated fails for a charge of 2^1024: converting it to a
    float overflows, and the whole extraction raises.  With an infinite m/z
    a charge of 0 gives a neutral mass that is NaN, not zero. *)
Lemma C8_counterexample :
  complete ion_huge_charge = Some (500.25%float, 2 ^ 1024) ∧
  extract_precursor_data huge_charge_doc = Raise OverflowError ∧
  derive_neutral_mass infinity 0 = Ok nan.
Proof. repeat split; vm_compute; reflexivity. Qed.

(** * Further properties of the code *)

(** ** The extractor on whole documents *)

Lemma columns_nil obs : columns obs = ([], [], []) → obs = [].
Proof. destruct obs; [done|]. unfold columns. by rewrite !fmap_cons. Qed.

(** X1. The extractor returns three empty lists, the case in which [main]
    reports that no MS2 precursor data was found, exactly when no selected
    ion of an MS2 spectrum carries both its m/z and its charge. *)
Theorem X1_no_data_iff (doc : Document) :
  extract_precursor_data doc = Ok ([], [], []) ↔
  Forall (λ ion, selected_ion_mz ion = None ∨ charge_state ion = None)
         (document_ions doc).
Proof.
  rewrite extract_precursor_data_spec. unfold document_observations.
  assert (omap complete (document_ions doc) = [] ↔
          Forall (λ ion, selected_ion_mz ion = None ∨ charge_state ion = None)
                 (document_ions doc)) as <-.
  { induction (document_ions doc) as [|ion ions IH]; [by split|].
    change (omap complete (ion :: ions))
      with (match complete ion with
            | Some mc => mc :: omap complete ions
            | None => omap complete ions
            end).
    rewrite Forall_cons, <- IH. unfold complete.
    destruct (selected_ion_mz ion), (charge_state ion).
    - split; [done | by intros [[?|?] _]].
    - split; [intros; split; auto | by intros [_ ?]].
    - split; [intros; split; auto | by intros [_ ?]].
    - split; [intros; split; auto | by intros [_ ?]]. }
  split.
  - destruct (traverse observe _) as [obs|] eqn:Hobs; simpl; [|done].
    intros Hcols. assert (obs = []) as -> by (apply columns_nil; congruence).
    apply traverse_Ok_length in Hobs. by apply nil_length_inv.
  - by intros ->.
Qed.

Lemma X1_no_data_iff_witness :
  extract_precursor_data [ms1_scan; unlevelled_scan;
                          spectrum_of 2 [precursor_of [ion_no_mz; ion_no_charge]]]
  = Ok ([], [], []).
Proof.
  apply X1_no_data_iff.
  change (Forall (λ ion, selected_ion_mz ion = None ∨ charge_state ion = None)
            [ion_no_mz; ion_no_charge]).
  constructor; [left; reflexivity|].
  constructor; [right; reflexivity|constructor].
Defined.

(** X2. Extracting from two documents put end to end gives, column by
    column, the first result followed by the second; it raises exactly when
    one of the two parts raises, the first part's exception taking
    precedence. *)
Theorem X2_extract_concatenation (doc1 doc2 : Document) :
  extract_precursor_data (doc1 ++ doc2) =
  match extract_precursor_data doc1 with
  | Raise e => Raise e
  | Ok (mzs1, chs1, nms1) =>
      match extract_precursor_data doc2 with
      | Raise e => Raise e
      | Ok (mzs2, chs2, nms2) => Ok (mzs1 ++ mzs2, chs1 ++ chs2, nms1 ++ nms2)
      end
  end.
Proof.
  rewrite !extract_precursor_data_spec. unfold document_observations.
  rewrite extract_app, omap_app, traverse_app.
  destruct (traverse observe (omap complete (document_ions doc1))) as [o1|];
    simpl; [|done].
  destruct (traverse observe (omap complete (document_ions doc2))) as [o2|];
    simpl; [|done].
  unfold columns. by rewrite !fmap_app.
Qed.

(** X3. The output forgets how ions are grouped: one MS2 spectrum with one
    precursor that holds, in order, every selected ion the walk visits
    gives the same result as the document itself. *)
Theorem X3_grouping_irrelevant (doc : Document) :
  extract_precursor_data [spectrum_of 2 [precursor_of (document_ions doc)]]
  = extract_precursor_data doc.
Proof.
  rewrite !extract_precursor_data_spec. unfold document_observations.
  f_equal. f_equal. f_equal.
  unfold document_ions at 1. simpl. unfold spectrum_ions. simpl.
  unfold precursor_ions. simpl. by rewrite !app_nil_r.
Qed.

(** X4. Whatever the accumulators hold when the walk starts, the walk only
    appends to them: each keeps its earlier entries as a prefix and the
    three grow by the same number of entries. *)
Theorem X4_accumulators_append_only (doc : Document) (st st' : Acc) :
  for_each doc process_spectrum st = Ok (tt, st') →
  ∃ mzs chs nms,
    precursor_mz st' = precursor_mz st ++ mzs ∧
    charge_states st' = charge_states st ++ chs ∧
    neutral_masses st' = neutral_masses st ++ nms ∧
    length mzs = length chs ∧ length chs = length nms ∧
    extract_precursor_data doc = Ok (mzs, chs, nms).
Proof.
  rewrite for_each_spectrum, extract_precursor_data_spec.
  unfold document_observations.
  destruct (traverse observe _) as [obs|]; [|done].
  intros [= <-]. eexists _, _, _. simpl.
  repeat split; try reflexivity; by rewrite !length_fmap.
Qed.

Lemma X4_accumulators_append_only_witness :
  let st := {| precursor_mz := [1%float]; charge_states := [];
               neutral_masses := [2%float; 3%float] |} in
  ∃ st' mzs chs nms,
    for_each single_ion_doc process_spectrum st = Ok (tt, st') ∧
    precursor_mz st' = [1%float] ++ mzs ∧ charge_states st' = [] ++ chs ∧
    neutral_masses st' = [2%float; 3%float] ++ nms ∧
    length mzs = length chs ∧ length chs = length nms.
Proof.
  intros st.
  assert (∃ st', for_each single_ion_doc process_spectrum st = Ok (tt, st'))
    as [st' H] by (eexists; vm_compute; reflexivity).
  destruct (X4_accumulators_append_only _ _ _ H)
    as (mzs & chs & nms & H1 & H2 & H3 & H4 & H5 & _).
  exists st', mzs, chs, nms. repeat split; assumption.
Defined.

(** ** The aggregator at its edges *)

Lemma py_min_is_Ok xs : is_Ok (py_min xs) ↔ xs ≠ [].
Proof. destruct xs; split; try done; [by intros [? ?] | by eexists]. Qed.

Lemma py_max_is_Ok xs : is_Ok (py_max xs) ↔ xs ≠ [].
Proof. destruct xs; split; try done; [by intros [? ?] | by eexists]. Qed.

Lemma summary_stats_is_Ok (np_mean : list float → float) mzs chs nms :
  mzs ≠ [] → nms ≠ [] → is_Ok (get_summary_stats np_mean mzs chs nms).
Proof.
  intros Hmz Hnm. unfold get_summary_stats.
  destruct mzs as [|mz mzs], nms as [|nm nms]; try done. simpl. by eexists.
Qed.

(** X5. [get_summary_stats] returns exactly when neither the m/z list nor
    the neutral-mass list is empty; otherwise it raises, and the only
    exception it can raise is the [ValueError] of [min] and [max] on an
    empty sequence.  The charge list plays no part in this. *)
Theorem X5_summary_needs_data (np_mean : list float → float)
    (mzs : list float) (chs : list Z) (nms : list float) :
  (is_Ok (get_summary_stats np_mean mzs chs nms) ↔ mzs ≠ [] ∧ nms ≠ []) ∧
  (∀ e, get_summary_stats np_mean mzs chs nms = Raise e → e = ValueError).
Proof.
  unfold get_summary_stats. destruct mzs as [|mz mzs], nms as [|nm nms]; simpl.
  - split; [split; [by intros [? ?] | by intros [? _]] | by intros e [= <-]].
  - split; [split; [by intros [? ?] | by intros [? _]] | by intros e [= <-]].
  - split; [split; [by intros [? ?] | by intros [_ ?]] | by intros e [= <-]].
  - split; [split; [intros _; by split | intros _; by eexists] | done].
Qed.

Lemma traverse_observe_columns l obs :
  traverse observe l = Ok obs →
  obs_mz <$> obs = fst <$> l ∧ obs_charge <$> obs = snd <$> l.
Proof.
  revert obs. induction l as [|mc l IH]; intros obs; simpl.
  - by intros [= <-].
  - destruct (observe mc) as [o|] eqn:Ho; simpl; [|done].
    destruct (traverse observe l) as [os|]; simpl; [|done].
    intros [= <-]. apply observe_Ok in Ho as (c & _ & ->).
    destruct (IH os eq_refl) as [IH1 IH2].
    rewrite !fmap_cons. simpl. by rewrite IH1, IH2.
Qed.

Lemma complete_Some ion mz c :
  complete ion = Some (mz, c) ↔
  selected_ion_mz ion = Some mz ∧ charge_state ion = Some c.
Proof.
  unfold complete. destruct (selected_ion_mz ion), (charge_state ion);
    split; try done; try (by intros [? ?]).
  - by intros [= -> ->].
  - by intros [[= ->] [= ->]].
Qed.

(** X6. The guard of [main] is enough for the statistics: whenever the
    extractor returns a non-empty m/z list, [get_summary_stats] on its three
    lists returns.  The figure it reports as 'Total MS2 Spectra' is the
    number of selected ions carrying both fields, not the number of MS2
    spectra, and the charge states it reports are exactly the charges of
    those ions. *)
Theorem X6_pipeline (np_mean : list float → float) (doc : Document)
    (mzs : list float) (chs : list Z) (nms : list float) :
  extract_precursor_data doc = Ok (mzs, chs, nms) → mzs ≠ [] →
  ∃ stats,
    get_summary_stats np_mean mzs chs nms = Ok stats ∧
    total_ms2_spectra stats
    = length (filter (λ ion, is_Some (selected_ion_mz ion) ∧
                             is_Some (charge_state ion)) (document_ions doc)) ∧
    ∀ c, c ∈ charge_states_found stats ↔
         ∃ ion mz, ion ∈ document_ions doc ∧
                   selected_ion_mz ion = Some mz ∧ charge_state ion = Some c.
Proof.
  intros Hext Hne.
  pose proof Hext as (obs & Hobs & -> & -> & ->)%extract_Ok_observations.
  assert (obs ≠ []) as Hobs_ne by (by intros ->).
  destruct (summary_stats_is_Ok np_mean (obs_mz <$> obs) (obs_charge <$> obs)
              (obs_neutral_mass <$> obs)) as [stats Hstats];
    [by destruct obs..|].
  exists stats. split; [done|].
  unfold document_observations in Hobs.
  pose proof (traverse_Ok_length _ _ _ Hobs) as Hlen.
  destruct (traverse_observe_columns _ _ Hobs) as [_ Hchs].
  unfold get_summary_stats in Hstats.
  destruct (py_min (obs_mz <$> obs)); [|done].
  destruct (py_max (obs_mz <$> obs)); [|done].
  destruct (py_min (obs_neutral_mass <$> obs)); [|done].
  destruct (py_max (obs_neutral_mass <$> obs)); [|done].
  injection Hstats as <-. simpl.
  split; [by rewrite length_fmap, Hlen, length_omap_complete|].
  intros c. destruct (sorted_spec (obs_charge <$> obs)) as (_ & _ & ->).
  rewrite Hchs, list_elem_of_fmap. split.
  - intros ([mz c'] & -> & (ion & Hion & Hc)%list_elem_of_omap).
    apply complete_Some in Hc as [? ?]. by exists ion, mz.
  - intros (ion & mz & Hion & Hmz & Hc). exists (mz, c). split; [done|].
    apply list_elem_of_omap. exists ion. split; [done|].
    by apply complete_Some.
Qed.

Lemma X6_pipeline_witness :
  ∃ mzs chs nms stats,
    extract_precursor_data [ms2_scan] = Ok (mzs, chs, nms) ∧
    get_summary_stats (λ _, 0%float) mzs chs nms = Ok stats ∧
    total_ms2_spectra stats = 2%nat ∧ length [ms2_scan] = 1%nat.
Proof.
  assert (∃ out, extract_precursor_data [ms2_scan] = Ok out)
    as [[[mzs chs] nms] H] by (eexists; vm_compute; reflexivity).
  assert (mzs ≠ []) as Hne.
  { vm_compute in H. injection H as <- _ _. discriminate. }
  destruct (X6_pipeline (λ _, 0%float) _ _ _ _ H Hne) as (stats & Hs & Ht & _).
  exists mzs, chs, nms, stats. repeat split; assumption.
Defined.

Lemma X5_summary_needs_data_witness :
  get_summary_stats (λ _, 0%float) [] [2; 3] [] = Raise ValueError ∧
  is_Ok (get_summary_stats (λ _, 0%float) [500.25%float] [] [998.5%float]).
Proof.
  split.
  - destruct (get_summary_stats (λ _, 0%float) [] [2; 3] []) as [stats|e] eqn:H.
    + exfalso.
      destruct (proj1 (proj1 (X5_summary_needs_data (λ _, 0%float) [] [2; 3] []))
                  ltac:(rewrite H; by eexists)) as [Hne _].
      by apply Hne.
    + f_equal.
      by apply (proj2 (X5_summary_needs_data (λ _, 0%float) [] [2; 3] [])).
  - apply X5_summary_needs_data. split; discriminate.
Defined.

(** ** NaN in [min] and [max] *)

Lemma is_nan_Prim2SF x : is_nan x = true ↔ Prim2SF x = S754_nan.
Proof.
  pose proof (not_nan_Prim2SF x) as H. unfold not_nan in H.
  destruct (is_nan x); split; try done.
  - intros _. destruct (Prim2SF x) eqn:E; try done;
      (assert (false = true); [|done]); symmetry; apply H; done.
  - intros Hnan. destruct H as [H _]. by specialize (H eq_refl).
Qed.

Lemma float_ltb_true_not_nan a b :
  (a <? b)%float = true → is_nan a = false ∧ is_nan b = false.
Proof.
  rewrite FloatAxioms.ltb_spec. unfold SFltb. intros H.
  split.
  - destruct (is_nan a) eqn:Ha; [|done].
    apply is_nan_Prim2SF in Ha. by rewrite Ha in H.
  - destruct (is_nan b) eqn:Hb; [|done].
    apply is_nan_Prim2SF in Hb. rewrite Hb in H.
    by destruct (Prim2SF a).
Qed.

Lemma fold_min_nan cur xs :
  let m := foldl (λ cur item, if (item <? cur)%float then item else cur) cur xs in
  m ∈ cur :: xs ∧ is_nan m = is_nan cur ∧ (is_nan cur = true → m = cur).
Proof.
  revert cur. induction xs as [|x xs IH]; intros cur; simpl.
  { split; [by left|done]. }
  destruct (x <? cur)%float eqn:Hlt.
  - destruct (float_ltb_true_not_nan _ _ Hlt) as [Hx Hcur].
    destruct (IH x) as (Hin & Hnan & _). split; [by right|].
    split; [congruence|]. intros ?. congruence.
  - destruct (IH cur) as (Hin & Hnan & Hsame). split; [|done].
    apply elem_of_cons in Hin as [->|Hin]; [by left|by do 2 right].
Qed.

Lemma fold_max_nan cur xs :
  let m := foldl (λ cur item, if (cur <? item)%float then item else cur) cur xs in
  m ∈ cur :: xs ∧ is_nan m = is_nan cur ∧ (is_nan cur = true → m = cur).
Proof.
  revert cur. induction xs as [|x xs IH]; intros cur; simpl.
  { split; [by left|done]. }
  destruct (cur <? x)%float eqn:Hlt.
  - destruct (float_ltb_true_not_nan _ _ Hlt) as [Hcur Hx].
    destruct (IH x) as (Hin & Hnan & _). split; [by right|].
    split; [congruence|]. intros ?. congruence.
  - destruct (IH cur) as (Hin & Hnan & Hsame). split; [|done].
    apply elem_of_cons in Hin as [->|Hin]; [by left|by do 2 right].
Qed.

(** X7. [min] and [max] always return an element of the list, and that
    element is NaN exactly when the first element is: a NaN in first place
    is returned by both, so the range is printed as "nan - nan", while a NaN
    anywhere else is passed over. *)
Theorem X7_nan_only_when_first (x : float) (xs : list float) :
  ∃ lo hi,
    py_min (x :: xs) = Ok lo ∧ py_max (x :: xs) = Ok hi ∧
    lo ∈ x :: xs ∧ hi ∈ x :: xs ∧
    is_nan lo = is_nan x ∧ is_nan hi = is_nan x ∧
    (is_nan x = true →
     format_2f lo +:+ " - " +:+ format_2f hi = "nan - nan").
Proof.
  destruct (fold_min_nan x xs) as (H1 & H2 & H3).
  destruct (fold_max_nan x xs) as (H4 & H5 & H6).
  eexists _, _. simpl. do 6 (split; [done|]).
  intros Hnan. rewrite (H3 Hnan), (H6 Hnan).
  apply is_nan_Prim2SF in Hnan. unfold format_2f. by rewrite Hnan.
Qed.

Lemma X7_nan_only_when_first_witness :
  ∃ lo hi,
    py_min [nan; 2; 1]%float = Ok lo ∧ py_max [nan; 2; 1]%float = Ok hi ∧
    is_nan lo = true ∧ is_nan hi = true ∧
    format_2f lo +:+ " - " +:+ format_2f hi = "nan - nan".
Proof.
  destruct (X7_nan_only_when_first nan [2; 1]%float)
    as (lo & hi & H1 & H2 & _ & _ & H3 & H4 & H5).
  exists lo, hi. repeat split; try assumption. apply H5. reflexivity.
Defined.

(** ** The reported charge states *)

Lemma StronglySorted_lt_NoDup (l : list Z) : StronglySorted Z.lt l → NoDup l.
Proof.
  induction 1 as [|c l Hl IH Hc]; constructor; [|done].
  intros Hin. rewrite Forall_forall in Hc. specialize (Hc c Hin). lia.
Qed.

Lemma sorted_py_set_unique (cs l : list Z) :
  StronglySorted Z.lt l → (∀ c, c ∈ l ↔ c ∈ cs) → sorted (py_set cs) = l.
Proof.
  intros Hl Hmem. destruct (sorted_spec cs) as (Hs & Hnd & Hin).
  apply (StronglySorted_unique_strong Z.lt); [|done|done|].
  - intros; lia.
  - apply NoDup_Permutation; [done|by apply StronglySorted_lt_NoDup|].
    intros c. by rewrite Hin, Hmem.
Qed.

(** X8. [sorted(set(charge_states))] is the one strictly ascending list
    that has the same members as [charge_states]; so the order of the
    observations and repeated charges do not affect what is reported. *)
Theorem X8_charge_states_unique (cs l : list Z) :
  StronglySorted Z.lt l → (∀ c, c ∈ l ↔ c ∈ cs) → sorted (py_set cs) = l.
Proof. apply sorted_py_set_unique. Qed.

Lemma X8_charge_states_unique_witness :
  sorted (py_set [5; 3; 2; 3; 5]) = [2; 3; 5].
Proof.
  apply X8_charge_states_unique.
  - repeat constructor; lia.
  - intros c. rewrite !elem_of_cons, !elem_of_nil. lia.
Defined.

(** ** The charge bins and the charge histogram *)

Lemma charge_extremes (cs : list Z) :
  cs ≠ [] →
  ∃ lo hi,
    py_min_int (sorted (py_set cs)) = Ok lo ∧
    py_max_int (sorted (py_set cs)) = Ok hi ∧
    lo ∈ cs ∧ hi ∈ cs ∧ ∀ c, c ∈ cs → lo ≤ c ≤ hi.
Proof.
  intros Hne. destruct (sorted_spec cs) as (_ & _ & Hin).
  destruct (py_min_int (sorted (py_set cs))) as [lo|] eqn:Hlo.
  2:{ destruct cs as [|c cs]; [done|].
      assert (c ∈ sorted (py_set (c :: cs))) as Hc by (apply Hin; by left).
      destruct (sorted (py_set (c :: cs))); [by apply elem_of_nil in Hc|done]. }
  destruct (py_max_int (sorted (py_set cs))) as [hi|] eqn:Hhi.
  2:{ by destruct (sorted (py_set cs)). }
  apply py_min_int_bounds in Hlo as [Hlo_in Hlo].
  apply py_max_int_bounds in Hhi as [Hhi_in Hhi].
  exists lo, hi. do 2 (split; [done|]).
  split; [by apply Hin|]. split; [by apply Hin|].
  intros c Hc%Hin. split; [by apply Hlo|by apply Hhi].
Qed.

(** X9. The bin edges depend on the charge states only through their
    minimum and maximum: any non-empty collection gets the edges (or the
    exception) of the two-element collection made of its extremes. *)
Theorem X9_bins_from_extremes (cs : list Z) :
  cs ≠ [] →
  ∃ lo hi,
    lo ∈ cs ∧ hi ∈ cs ∧ (∀ c, c ∈ cs → lo ≤ c ≤ hi) ∧
    charge_bins cs = charge_bins [lo; hi].
Proof.
  intros Hne.
  destruct (charge_extremes cs Hne) as (lo & hi & Hlo & Hhi & Hlo_in & Hhi_in & Hb).
  destruct (charge_extremes [lo; hi] ltac:(done))
    as (lo' & hi' & Hlo' & Hhi' & Hlo_in' & Hhi_in' & Hb').
  exists lo, hi. do 3 (split; [done|]).
  assert (lo' = lo ∧ hi' = hi) as [-> ->].
  { pose proof (Hb lo Hlo_in). pose proof (Hb hi Hhi_in).
    pose proof (Hb' lo ltac:(by left)). pose proof (Hb' hi ltac:(by right; left)).
    apply elem_of_cons in Hlo_in' as [->|Hlo_in'];
      apply elem_of_cons in Hhi_in' as [->|Hhi_in'];
      rewrite ?list_elem_of_singleton in *; subst; lia. }
  unfold charge_bins. by rewrite Hlo, Hhi, Hlo', Hhi'.
Qed.

Lemma X9_bins_from_extremes_witness :
  charge_bins [3; 2; 5; 4; 2] = charge_bins [2; 5].
Proof.
  destruct (X9_bins_from_extremes [3; 2; 5; 4; 2]) as (lo & hi & Hlo & Hhi & Hb & H).
  { discriminate. }
  assert (lo = 2 ∧ hi = 5) as [-> ->].
  { pose proof (Hb 2 ltac:(by right; left)).
    pose proof (Hb 5 ltac:(by do 2 right; left)).
    rewrite !elem_of_cons, !elem_of_nil in Hlo, Hhi. lia. }
  exact H.
Defined.

(** X10. For charge states of magnitude at most 2^50 the bin edges form a
    strictly increasing sequence of at least two numbers in which each edge
    is exactly one more than the one before. *)
Theorem X10_edges_unit_steps (cs : list Z) :
  cs ≠ [] → Forall (λ c, Z.abs c ≤ 2 ^ 50) cs →
  ∃ edges,
    charge_bins cs = Ok edges ∧ (2 ≤ length edges)%nat ∧
    ∀ i a b, edges !! i = Some a → edges !! S i = Some b →
             (a <? b)%float = true ∧ (b - a)%float = 1%float.
Proof.
  intros Hne Hall.
  destruct (charge_bins_centred cs Hne Hall) as (lo & hi & Hlo & Hhi & Hb & ->).
  rewrite Forall_forall in Hall.
  pose proof (Hall lo Hlo). pose proof (Hall hi Hhi).
  pose proof (Hb lo Hlo).
  assert (2 ^ 50 * 8 = 2 ^ 53) as Hpow by done.
  assert (length (centred_edges lo hi) = Z.to_nat (hi - lo + 2)) as Hlen.
  { unfold centred_edges. by rewrite length_fmap, length_seq. }
  eexists. split; [done|]. split; [lia|].
  intros i a b Ha Hb'.
  pose proof (lookup_lt_Some _ _ _ Hb') as Hi. rewrite Hlen in Hi.
  rewrite centred_edges_lookup in Ha, Hb' by lia.
  injection Ha as <-. injection Hb' as <-.
  destruct (half_compare (2 * (lo + Z.of_nat i) - 1) (2 * (lo + Z.of_nat (S i)) - 1)
              ltac:(lia) ltac:(lia)) as [-> _].
  split; [apply Z.ltb_lt; lia|].
  rewrite half_sub by lia.
  replace (2 * (lo + Z.of_nat (S i)) - 1 - (2 * (lo + Z.of_nat i) - 1)) with 2
    by lia.
  done.
Qed.

Lemma X10_edges_unit_steps_witness :
  ∃ edges, charge_bins [2; 5; 3] = Ok edges ∧ (2 ≤ length edges)%nat.
Proof.
  destruct (X10_edges_unit_steps [2; 5; 3]) as (edges & H1 & H2 & _).
  - discriminate.
  - repeat constructor; vm_compute; discriminate.
  - by exists edges.
Defined.

Lemma traverse_float_of_int (cs : list Z) :
  Forall (λ c, Z.abs c < 2 ^ 53) cs →
  traverse float_of_int cs = Ok ((λ c, half (2 * c)) <$> cs).
Proof.
  induction 1 as [|c cs Hc _ IH]; [done|].
  simpl. by rewrite float_of_int_exact, IH.
Qed.

Lemma count_in_bin lo hi (cs : list Z) (k : nat) :
  Z.abs lo ≤ 2 ^ 50 → Z.abs hi ≤ 2 ^ 50 →
  Forall (λ c, lo ≤ c ≤ hi) cs →
  length (filter (λ x, in_bin (centred_edges lo hi) k x = true)
            ((λ c, half (2 * c)) <$> cs))
  = length (filter (λ c, c = lo + Z.of_nat k) cs).
Proof.
  intros Hlo Hhi. induction 1 as [|c cs Hc _ IH]; [done|].
  rewrite fmap_cons, !filter_cons.
  pose proof (in_bin_centred lo hi c k Hlo Hhi Hc) as Hbin.
  destruct (decide (in_bin _ _ _ = true)) as [Hin|Hout];
    destruct (decide (c = lo + Z.of_nat k)) as [Heq|Hne]; simpl.
  - by rewrite IH.
  - apply Hbin in Hin. lia.
  - exfalso. apply Hout, Hbin. lia.
  - done.
Qed.

Lemma sum_list_indicator (j start len : nat) :
  sum_list ((λ k, if decide (j = k) then 1 else 0)%nat <$> seq start len)
  = if decide (start ≤ j < start + len)%nat then 1%nat else 0%nat.
Proof.
  revert start. induction len as [|len IH]; intros start; simpl.
  - destruct (decide _); [lia|done].
  - rewrite IH. repeat destruct (decide _); lia.
Qed.

Lemma sum_list_counts {A} (f : A → nat) (n : nat) (l : list A) :
  Forall (λ x, f x < n)%nat l →
  sum_list ((λ k, length (filter (λ x, f x = k) l)) <$> seq 0 n) = length l.
Proof.
  induction 1 as [|x l Hx _ IH]; simpl.
  - induction (seq 0 n) as [|k ks IHk]; [done|]. by rewrite fmap_cons.
  - rewrite <- IH.
    transitivity
      (sum_list ((λ k, if decide (f x = k) then 1 else 0)%nat <$> seq 0 n)
       + sum_list ((λ k, length (filter (λ x, f x = k) l)) <$> seq 0 n))%nat.
    + generalize (seq 0 n). intros ks.
      induction ks as [|k ks IHk]; [done|].
      rewrite !fmap_cons. simpl. rewrite IHk, filter_cons.
      destruct (decide (f x = k)); simpl; lia.
    + rewrite sum_list_indicator. destruct (decide _); lia.
Qed.

(** X11. For charge states of magnitude at most 2^50 the charge histogram
    has one bin for every integer from the minimum to the maximum charge;
    the bin of an integer [c] counts exactly the observations with charge
    [c], and the counts add up to the number of observations. *)
Theorem X11_charge_histogram (cs : list Z) :
  cs ≠ [] → Forall (λ c, Z.abs c ≤ 2 ^ 50) cs →
  ∃ lo hi edges counts,
    lo ∈ cs ∧ hi ∈ cs ∧ (∀ c, c ∈ cs → lo ≤ c ≤ hi) ∧
    charge_histogram cs = Ok (edges, counts) ∧
    length counts = Z.to_nat (hi - lo + 1) ∧
    (∀ c, lo ≤ c ≤ hi →
       counts !! Z.to_nat (c - lo) = Some (length (filter (λ c', c' = c) cs))) ∧
    sum_list counts = length cs.
Proof.
  intros Hne Hall.
  destruct (charge_bins_centred cs Hne Hall) as (lo & hi & Hlo & Hhi & Hb & Hbins).
  assert (2 ^ 50 * 8 = 2 ^ 53) as Hpow by done.
  assert (Forall (λ c, lo ≤ c ≤ hi) cs) as Hrange.
  { apply Forall_forall. intros c Hc. by apply Hb. }
  rewrite Forall_forall in Hall.
  pose proof (Hall lo Hlo) as Hlo50. pose proof (Hall hi Hhi) as Hhi50.
  pose proof (Hb lo Hlo).
  exists lo, hi, (centred_edges lo hi).
  eexists. do 3 (split; [done|]).
  unfold charge_histogram. rewrite Hbins. simpl.
  rewrite traverse_float_of_int.
  2:{ apply Forall_forall. intros c Hc. specialize (Hall c Hc). lia. }
  simpl. split; [reflexivity|].
  assert (length (centred_edges lo hi) - 1 = Z.to_nat (hi - lo + 1))%nat as Hlen.
  { unfold centred_edges. rewrite length_fmap, length_seq. lia. }
  unfold histogram_counts. rewrite Hlen.
  split; [by rewrite length_fmap, length_seq|]. split.
  - intros c Hc. rewrite list_lookup_fmap, lookup_seq_lt by lia. simpl.
    f_equal. rewrite count_in_bin by done.
    f_equal. apply list_filter_iff. intros c'. lia.
  - transitivity
      (sum_list ((λ k, length (filter (λ c, Z.to_nat (c - lo) = k) cs))
                   <$> seq 0 (Z.to_nat (hi - lo + 1)))).
    + f_equal. apply list_fmap_ext. intros idx k Hk%lookup_seq.
      rewrite count_in_bin by done. clear -Hrange.
      induction Hrange as [|c cs Hc _ IH]; [done|].
      rewrite !filter_cons.
      destruct (decide (c = lo + Z.of_nat k)), (decide (Z.to_nat (c - lo) = k));
        simpl; lia.
    + apply sum_list_counts. eapply Forall_impl; [exact Hrange|].
      intros c Hc. cbv beta in *. lia.
Qed.

Lemma X11_charge_histogram_witness :
  charge_histogram [2; 3; 5; 3; 2; 2]
  = Ok ([1.5; 2.5; 3.5; 4.5; 5.5]%float, [3; 2; 0; 1]%nat).
Proof.
  destruct (X11_charge_histogram [2; 3; 5; 3; 2; 2])
    as (lo & hi & edges & counts & _ & _ & _ & H & _).
  - discriminate.
  - repeat constructor; vm_compute; discriminate.
  - rewrite H. vm_compute in H. by injection H as <- <-.
Defined.

(** ** Scan order and the summary *)

(** X12. Reordering the spectra of a document on which the extractor
    returns reorders each of the three output lists without adding or
    losing an entry; so the reported count and the reported charge states
    do not depend on the scan order. *)
Theorem X12_scan_order (np_mean : list float → float) (doc doc' : Document)
    (mzs : list float) (chs : list Z) (nms : list float) :
  doc' ≡ₚ doc → extract_precursor_data doc = Ok (mzs, chs, nms) →
  ∃ mzs' chs' nms',
    extract_precursor_data doc' = Ok (mzs', chs', nms') ∧
    mzs' ≡ₚ mzs ∧ chs' ≡ₚ chs ∧ nms' ≡ₚ nms ∧
    ∀ stats stats',
      get_summary_stats np_mean mzs chs nms = Ok stats →
      get_summary_stats np_mean mzs' chs' nms' = Ok stats' →
      total_ms2_spectra stats' = total_ms2_spectra stats ∧
      charge_states_found stats' = charge_states_found stats.
Proof.
  intros Hperm Hext.
  assert (Forall (λ s, is_Ok (extract_precursor_data [s])) doc) as Hall.
  { apply extract_Ok_Forall. by eexists. }
  rewrite (extract_blocks doc Hall) in Hext. injection Hext as <- <- <-.
  eexists _, _, _. split.
  { apply extract_blocks. by rewrite Hperm. }
  assert (block <$> doc' ≡ₚ block <$> doc) as Hblocks by (by rewrite Hperm).
  split; [by rewrite Hblocks|]. split; [by rewrite Hblocks|].
  split; [by rewrite Hblocks|].
  intros stats stats'. unfold get_summary_stats.
  repeat (match goal with
          | |- context [py_min ?l] => destruct (py_min l); simpl; [|done]
          | |- context [py_max ?l] => destruct (py_max l); simpl; [|done]
          end).
  intros [= <-] [= <-]. simpl. split.
  - apply Permutation_length. by rewrite Hblocks.
  - destruct (sorted_spec (mjoin ((λ b, b.1.2) <$> (block <$> doc))))
      as (Hs & _ & Hin).
    apply sorted_py_set_unique; [done|].
    intros c. rewrite Hin. by rewrite Hblocks.
Qed.

Lemma X12_scan_order_witness :
  ∃ mzs' chs' nms',
    extract_precursor_data (reverse example_doc) = Ok (mzs', chs', nms') ∧
    chs' ≡ₚ [2; 3; 0].
Proof.
  assert (extract_precursor_data example_doc
          = Ok ([500.25; 623.5; 700.125]%float, [2; 3; 0],
                [998.48544706637597; 1867.4781705995640; 0]%float)) as H
    by (vm_compute; reflexivity).
  destruct (X12_scan_order (λ _, 0%float) example_doc (reverse example_doc)
              _ _ _ (reverse_Permutation _) H)
    as (mzs' & chs' & nms' & H1 & _ & H2 & _).
  by exists mzs', chs', nms'.
Defined.
